(** * trello_parser: a shallow embedding of [utils/trello_parser.py]

    The development follows the module top to bottom: the decoded export
    (the value [json.load] returns), Python's stable [list.sort(key=...)],
    the insertion-ordered [dict] that links list ids to groups, the board
    extractor [parse_board], the directory scanner and the batch driver.

    Exceptions are values of [exn]; a computation that may raise returns a
    [result].  The two library calls whose code is not part of the module,
    [dateutil.parser.isoparse] and the [os] / [open] file interface, are
    parameters of the sections that use them.

    The decoded export is a record: the keys the extractor reads without a
    test are fields, the keys it tests for ([listBefore], [old], [name] in
    [old]) are options.  A JSON number is a rational, an instant is an
    integer count of microseconds, and the difference of two instants is a
    duration.  The dates of one export are taken to compare with each other
    (all with a zone offset, or all without), and a date that [isoparse]
    refuses is reported as [ValueError], whatever [isoparse] raises. *)

From Stdlib Require Import ZArith QArith Lia DecimalString.
From stdpp Require Import gmap strings list sorting.

Local Open Scope string_scope.
Local Open Scope list_scope.
Local Open Scope Z_scope.

(** ** Exceptions *)

Inductive exn : Type :=
  | KeyError (key : string)
  | ValueError (text : string)
  | StopIteration
  | IndexError
  | OSError (path : string).

Inductive result (A : Type) : Type :=
  | Ok (a : A)
  | Raise (e : exn).
Arguments Ok {A} a.
Arguments Raise {A} e.

#[global] Instance result_ret : MRet result := λ A a, Ok a.
#[global] Instance result_bind : MBind result :=
  λ A B f r, match r with Ok a => f a | Raise e => Raise e end.

Definition from_option {A} (e : exn) (o : option A) : result A :=
  match o with Some a => Ok a | None => Raise e end.

Definition succeeds {A} (r : result A) : Prop := ∃ a, r = Ok a.
Definition raises {A} (r : result A) : Prop := ∃ e, r = Raise e.

#[global] Instance succeeds_dec {A} (r : result A) : Decision (succeeds r).
Proof.
  refine (match r with Ok a => left _ | Raise e => right _ end).
  - by exists a.
  - by intros [a [=]].
Defined.

#[global] Instance raises_dec {A} (r : result A) : Decision (raises r).
Proof.
  refine (match r with Ok a => right _ | Raise e => left _ end).
  - by intros [e [=]].
  - by exists e.
Defined.

(** A [for] loop whose body may raise: the first exception leaves the loop. *)
Fixpoint for_each {A S : Type} (body : S → A → result S) (l : list A) (s : S)
  : result S :=
  match l with
  | [] => Ok s
  | x :: l' => s' ← body s x; for_each body l' s'
  end.

(** ** Python's [list.sort(key=...)]

    The sort is stable: elements whose keys compare equal keep their
    relative order.  It is embedded as a stable insertion sort on the key;
    [x] is placed in front of the first element whose key is not smaller. *)

Section ListSort.
Context {A K : Type} (key : A → K) (leb : K → K → bool).

Fixpoint sort_insert (x : A) (l : list A) : list A :=
  match l with
  | [] => [x]
  | y :: l' =>
      if leb (key x) (key y) then x :: y :: l' else y :: sort_insert x l'
  end.

Definition list_sort (l : list A) : list A := foldr sort_insert [] l.

Definition key_le (a b : A) : Prop := leb (key a) (key b) = true.

Definition same_key (k : K) (a : A) : Prop :=
  leb (key a) k = true ∧ leb k (key a) = true.

#[global] Instance same_key_dec k a : Decision (same_key k a).
Proof. unfold same_key. apply _. Defined.
End ListSort.

(** ** Python's [dict]: insertion ordered, one slot per key

    Assigning to a key that is present replaces the value and keeps the
    slot where the key was first inserted. *)

Section Dict.
Context {V : Type}.

Fixpoint dict_get (k : string) (d : list (string * V)) : option V :=
  match d with
  | [] => None
  | (k', v) :: d' => if decide (k' = k) then Some v else dict_get k d'
  end.

Fixpoint dict_set (k : string) (v : V) (d : list (string * V))
  : list (string * V) :=
  match d with
  | [] => [(k, v)]
  | (k', v') :: d' =>
      if decide (k' = k) then (k', v) :: d' else (k', v') :: dict_set k v d'
  end.

Definition dict_keys (d : list (string * V)) : list string := d.*1.
Definition dict_values (d : list (string * V)) : list V := d.*2.
End Dict.

(** ** The decoded export *)

(** A list object of the export: [id], [name], [pos].  [pos] is a JSON
    number; Python compares ints and floats by their exact value, which is
    a rational. *)
Record TrelloList : Type := {
  list_id : string;
  list_name : string;
  list_pos : Q;
}.

Record Card : Type := {
  card_name : string;
  card_idList : string;
  card_closed : bool;
}.

(** The [data] object of an action.  The extractor only tests which keys
    are present: [listBefore] in [data], and [name] in [data['old']]. *)
Record OldData : Type := {
  old_name : option string;
}.

Record ActionData : Type := {
  data_listBefore : option string;
  data_old : option OldData;
}.

Record Action : Type := {
  action_type : string;
  action_date : string;
  action_data : ActionData;
}.

Record Board : Type := {
  board_name : string;
  board_lists : list TrelloList;
  board_cards : list Card;
  board_actions : list Action;
}.

(** ** Card identifiers, groups and sorts *)

(** Modelled from the spec: [Hashable] is missing from the sources; the spec
    asks for a closed type of primitive scalars.  A raw card name is an
    [HStr]. *)
Inductive hashable : Type :=
  | HStr (s : string)
  | HInt (n : Z).

#[global] Instance hashable_eq_dec : EqDecision hashable.
Proof. solve_decision. Defined.

#[global] Instance hashable_countable : Countable hashable.
Proof.
  refine (inj_countable'
    (λ h, match h with HStr s => inl s | HInt n => inr n end)
    (λ x, match x with inl s => HStr s | inr n => HInt n end) _).
  by intros [].
Defined.

(** Modelled from the spec: [utils.sorts.Group] is missing from the sources;
    a group has a name and a set of card identifiers, empty when it is
    built. *)
Record Group : Type := {
  group_name : string;
  group_cards : gset hashable;
}.

Definition new_Group (name : string) : Group :=
  {| group_name := name; group_cards := ∅ |}.

(** [group.cards.add(card_data)] *)
Definition cards_add (card_data : hashable) (group : Group) : Group :=
  {| group_name := group_name group;
     group_cards := {[card_data]} ∪ group_cards group |}.

(** Modelled from the spec: [utils.sorts.Sort] is missing from the sources; a
    sort has a name, a sequence of groups and a duration.  Instants and
    durations are counted in microseconds. *)
Record Sort : Type := {
  sort_name : string;
  sort_groups : list Group;
  sort_duration : Z;
}.

(** ** The board extractor *)

Definition is_createList (action : Action) : Prop :=
  action_type action = "createList".

#[global] Instance is_createList_dec action : Decision (is_createList action).
Proof. unfold is_createList. apply _. Defined.

(** Lines 55-66: the test made on one action.  The third branch reads
    [action_data['old']], which raises when the key is absent. *)
Definition keep_action (action : Action) : result bool :=
  let action_data := action_data action in
  let action_type := action_type action in
  if decide (action_type = "updateCard" ∧ is_Some (data_listBefore action_data))
  then Ok true
  else if decide (action_type = "createList") then Ok true
  else if decide (action_type = "updateList") then
    old ← from_option (KeyError "old") (data_old action_data);
    Ok (bool_decide (is_Some (old_name old)))
  else Ok false.

Definition valid_actions (actions : list Action) : result (list Action) :=
  for_each (λ valid action,
      keep ← keep_action action;
      Ok (if keep : bool then valid ++ [action] else valid))
    actions [].

(** Lines 30-34 *)
Definition make_groups (trello_lists : list TrelloList)
  : list (string * Group) :=
  foldl (λ groups_by_id trello_list,
      dict_set (list_id trello_list) (new_Group (list_name trello_list))
        groups_by_id)
    [] trello_lists.

(** Lines 44-47 *)
Definition card_data_of (card_mapping : option (gmap string hashable))
    (card : Card) : result hashable :=
  match card_mapping with
  | Some mapping =>
      from_option (KeyError (card_name card)) (mapping !! card_name card)
  | None => Ok (HStr (card_name card))
  end.

(** Lines 40-48.  The group object found under [idList] is updated in place,
    so the dictionary keeps its slot. *)
Definition assign_cards (card_mapping : option (gmap string hashable))
    (cards : list Card) (groups_by_id : list (string * Group))
  : result (list (string * Group)) :=
  for_each (λ groups_by_id card,
      let group_id := card_idList card in
      group ← from_option (KeyError group_id) (dict_get group_id groups_by_id);
      card_data ← card_data_of card_mapping card;
      Ok (dict_set group_id (cards_add card_data group) groups_by_id))
    cards groups_by_id.

Section Extractor.
(** [dateutil.parser.isoparse]: the instant a timestamp denotes, or
    nothing when the text is not a timestamp. *)
Variable isoparse : string → option Z.

Definition parse_date (action : Action) : result Z :=
  from_option (ValueError (action_date action)) (isoparse (action_date action)).

(** Line 51.  [list.sort] first computes the key of every element, so an
    unreadable date raises before anything moves; then it sorts on the
    keys. *)
Definition sort_actions (actions : list Action) : result (list Action) :=
  keys ← for_each (λ keys action, key ← parse_date action; Ok (keys ++ [key]))
    actions [];
  Ok ((list_sort fst Z.leb (zip keys actions)).*2).

Definition sort_lists (trello_lists : list TrelloList) : list TrelloList :=
  list_sort list_pos Qle_bool trello_lists.

Definition parse_board (data : Board)
    (card_mapping : option (gmap string hashable)) : result Sort :=
  let trello_lists := sort_lists (board_lists data) in
  let groups_by_id := make_groups trello_lists in
  let cards := filter (λ card, card_closed card = false) (board_cards data) in
  groups_by_id ← assign_cards card_mapping cards groups_by_id;
  actions ← sort_actions (board_actions data);
  valid_actions ← valid_actions actions;
  first_list ← from_option StopIteration
                 (head (filter is_createList valid_actions));
  start_time ← parse_date first_list;
  last_action ← from_option IndexError (last actions);
  end_time ← parse_date last_action;
  let total_sort_time := end_time - start_time in
  let groups :=
    filter (λ group, group_cards group ≠ ∅) (dict_values groups_by_id) in
  let sort_name := board_name data in
  Ok {| sort_name := sort_name; sort_groups := groups;
        sort_duration := total_sort_time |}.
End Extractor.

(** ** The directory scanner and the batch driver *)

(** The part of [os] and [open] the module calls: [os.listdir],
    [os.path.isfile], and [open] followed by the [json.load] of the
    extractor's first line. *)
Record FileSystem : Type := {
  listdir : string → result (list string);
  isfile : string → bool;
  open_json : string → result Board;
}.

(** [str.endswith] *)
Fixpoint endswith (s suffix : string) : bool :=
  if String.eqb s suffix then true
  else match s with
       | EmptyString => false
       | String _ s' => endswith s' suffix
       end.

(** [os.path.join] on two components (POSIX) *)
Definition path_join (path file : string) : string :=
  if String.prefix "/" file then file
  else if String.eqb path "" || endswith path "/" then path +:+ file
  else path +:+ "/" +:+ file.

Definition is_json_file (fs : FileSystem) (path file : string) : Prop :=
  isfile fs (path_join path file) = true ∧ endswith file ".json" = true.

#[global] Instance is_json_file_dec fs path file :
  Decision (is_json_file fs path file).
Proof. unfold is_json_file. apply _. Defined.

(** Lines 93-97: the paths the generator yields, in [os.listdir]'s order. *)
Definition get_paths_to_jsons_in_dir (fs : FileSystem) (path : string)
  : result (list string) :=
  files ← listdir fs path;
  Ok (omap (M := list) (λ file,
        let file_path := path_join path file in
        if isfile fs file_path && endswith file ".json"
        then Some file_path else None)
      files).

Section BatchDriver.
Variable isoparse : string → option Z.

(** Lines 114-115: one file opened, decoded and extracted. *)
Definition parse_file (fs : FileSystem)
    (card_mapping : option (gmap string hashable)) (path : string)
  : result Sort :=
  data ← open_json fs path; parse_board isoparse data card_mapping.

Definition parse_sorts_in_dir (fs : FileSystem) (path : string)
    (card_mapping : option (gmap string hashable)) : result (list Sort) :=
  trello_json_paths ← get_paths_to_jsons_in_dir fs path;
  for_each (λ sorts path,
      sort ← parse_file fs card_mapping path; Ok (sorts ++ [sort]))
    trello_json_paths [].
End BatchDriver.

(** ** Vocabulary of the statements *)

(** The instant of an action whose date is readable. *)
Definition dated (isoparse : string → option Z) (action : Action) (t : Z)
  : Prop :=
  isoparse (action_date action) = Some t.

Definition readable (isoparse : string → option Z) (action : Action) : Prop :=
  is_Some (isoparse (action_date action)).

Definition instant (isoparse : string → option Z) (action : Action) : Z :=
  default 0 (isoparse (action_date action)).

(** The actions lines 59-66 append to [valid_actions]. *)
Definition retained (action : Action) : Prop :=
  (action_type action = "updateCard"
     ∧ is_Some (data_listBefore (action_data action)))
  ∨ action_type action = "createList"
  ∨ (action_type action = "updateList"
     ∧ is_Some (data_old (action_data action) ≫= old_name)).

#[global] Instance retained_dec action : Decision (retained action).
Proof. unfold retained. apply _. Defined.

(** The same test with the type values as the specification spells them. *)
Definition spec_retained (action : Action) : Prop :=
  (action_type action = "card updated"
     ∧ is_Some (data_listBefore (action_data action)))
  ∨ action_type action = "list created"
  ∨ (action_type action = "list updated"
     ∧ is_Some (data_old (action_data action) ≫= old_name)).

#[global] Instance spec_retained_dec action : Decision (spec_retained action).
Proof. unfold spec_retained. apply _. Defined.

Definition pos_le (a b : TrelloList) : Prop :=
  Qle_bool (list_pos a) (list_pos b) = true.

Definition pos_is (p : Q) (l : TrelloList) : Prop :=
  Qeq_bool (list_pos l) p = true.

#[global] Instance pos_is_dec p l : Decision (pos_is p l).
Proof. unfold pos_is. apply _. Defined.

(** The identifiers that the cards of [cards] filed under list id [k] put in
    the group of that list, and the same for the open cards of a board. *)
Definition identifiers (card_mapping : option (gmap string hashable))
    (cards : list Card) (k : string) : gset hashable :=
  list_to_set (omap (M := list) (λ card,
      if decide (card_idList card = k)
      then match card_data_of card_mapping card with
           | Ok x => Some x
           | Raise _ => None
           end
      else None)
    cards).

Definition is_open (card : Card) : Prop := card_closed card = false.

#[global] Instance is_open_dec card : Decision (is_open card).
Proof. unfold is_open. apply _. Defined.

Definition cards_of (card_mapping : option (gmap string hashable))
    (cards : list Card) (k : string) : gset hashable :=
  identifiers card_mapping (filter is_open cards) k.

(** The slot lines 31-34 make for one list. *)
Definition slot_of (trello_list : TrelloList) : string * Group :=
  (list_id trello_list, new_Group (list_name trello_list)).

(** What the card loop has done to one slot of the dictionary. *)
Definition fill (card_mapping : option (gmap string hashable))
    (cards : list Card) (slot : string * Group) : string * Group :=
  (slot.1,
   {| group_name := group_name slot.2;
      group_cards := identifiers card_mapping cards slot.1 ∪ group_cards slot.2 |}).

(** The document without its closed cards. *)
Definition discard_closed (data : Board) : Board :=
  {| board_name := board_name data;
     board_lists := board_lists data;
     board_cards := filter is_open (board_cards data);
     board_actions := board_actions data |}.

(** [trello_list] is the list a group was built from: it gave the group its
    name, and the open cards filed under its id gave the identifiers. *)
Definition source_list (data : Board)
    (card_mapping : option (gmap string hashable))
    (group : Group) (trello_list : TrelloList) : Prop :=
  trello_list ∈ board_lists data
  ∧ group_name group = list_name trello_list
  ∧ group_cards group
    = cards_of card_mapping (board_cards data) (list_id trello_list).

(** The groups follow their source lists, which ascend in [pos]; lists of
    one [pos] come in the order of the [lists] array. *)
Definition in_pos_order (data : Board)
    (card_mapping : option (gmap string hashable))
    (groups : list Group) (sources : list TrelloList) : Prop :=
  Forall2 (source_list data card_mapping) groups sources
  ∧ StronglySorted pos_le sources
  ∧ ∀ p, filter (pos_is p) sources
         `sublist_of` filter (pos_is p) (board_lists data).

Definition has_open_cards (data : Board)
    (card_mapping : option (gmap string hashable))
    (trello_list : TrelloList) : Prop :=
  cards_of card_mapping (board_cards data) (list_id trello_list) ≠ ∅.

#[global] Instance has_open_cards_dec data card_mapping trello_list :
  Decision (has_open_cards data card_mapping trello_list).
Proof. unfold has_open_cards. apply _. Defined.

(** The decoded document as a run leaves it: line 25 sorts the [lists] array
    in place, and line 51 sorts the [actions] array in place when the run
    gets there and every date is readable. *)
Definition decoded_after (isoparse : string → option Z) (data : Board)
    (card_mapping : option (gmap string hashable)) : Board :=
  let trello_lists := sort_lists (board_lists data) in
  {| board_name := board_name data;
     board_lists := trello_lists;
     board_cards := board_cards data;
     board_actions :=
       match assign_cards card_mapping (filter is_open (board_cards data))
               (make_groups trello_lists) with
       | Ok _ =>
           match sort_actions isoparse (board_actions data) with
           | Ok actions => actions
           | Raise _ => board_actions data
           end
       | Raise _ => board_actions data
       end |}.

(** A list update whose [data] has no [old] object. *)
Definition lacks_old (action : Action) : Prop :=
  action_type action = "updateList" ∧ data_old (action_data action) = None.

#[global] Instance lacks_old_dec action : Decision (lacks_old action).
Proof. unfold lacks_old. apply _. Defined.

(** The claim on action kinds as the specification words it: the actions
    kept are those that pass [spec_retained]. *)
Definition retains_as_specified (actions : list Action) : Prop :=
  valid_actions actions = Ok (filter spec_retained actions).

(** An open card can be placed when its [idList] is the id of a list and
    its identifier can be computed. *)
Definition placeable (data : Board)
    (card_mapping : option (gmap string hashable)) (card : Card) : Prop :=
  card_idList card ∈ (list_id <$> board_lists data)
  ∧ succeeds (card_data_of card_mapping card).

#[global] Instance placeable_dec data card_mapping card :
  Decision (placeable data card_mapping card).
Proof. unfold placeable. apply _. Defined.

(** The exception the card loop raises on a card it cannot place: the
    lookup of line 42 comes before the lookup of line 45. *)
Definition card_error (data : Board) (card : Card) : exn :=
  if decide (card_idList card ∈ (list_id <$> board_lists data))
  then KeyError (card_name card)
  else KeyError (card_idList card).

(** The documents the extractor accepts. *)
Definition extractable (isoparse : string → option Z) (data : Board)
    (card_mapping : option (gmap string hashable)) : Prop :=
  Forall (placeable data card_mapping) (filter is_open (board_cards data))
  ∧ Forall (readable isoparse) (board_actions data)
  ∧ Forall (λ action, ¬ lacks_old action) (board_actions data)
  ∧ Exists is_createList (board_actions data).

#[global] Instance readable_dec isoparse action :
  Decision (readable isoparse action).
Proof. unfold readable. apply _. Defined.

#[global] Instance extractable_dec isoparse data card_mapping :
  Decision (extractable isoparse data card_mapping).
Proof. unfold extractable. apply _. Defined.

(** Two documents with the same name and lists, and the same cards and
    actions up to the order of the arrays. *)
Definition same_contents (data data' : Board) : Prop :=
  board_name data' = board_name data
  ∧ board_lists data' = board_lists data
  ∧ board_cards data' ≡ₚ board_cards data
  ∧ board_actions data' ≡ₚ board_actions data.

(** [file_path] is the path of the entry named [file] in the directory
    [path]: the directory, one separator unless the directory path is empty
    or already ends with one, and the name.  The name of an entry does not
    begin with the separator. *)
Inductive entry_path (path file : string) : string → Prop :=
  | entry_path_sep :
      path ≠ "" → (∀ front, path ≠ front +:+ "/") →
      (∀ rest, file ≠ "/" +:+ rest) →
      entry_path path file (path +:+ "/" +:+ file)
  | entry_path_nosep :
      (path = "" ∨ ∃ front, path = front +:+ "/") →
      (∀ rest, file ≠ "/" +:+ rest) →
      entry_path path file (path +:+ file).

Definition json_named (file : string) : Prop :=
  ∃ stem, file = stem +:+ ".json".

(** An export of a directory: an entry that is a plain file and whose name
    ends in [.json]; [child] gives the path of an entry. *)
Definition export_entry (fs : FileSystem) (child : string → string)
    (file : string) : Prop :=
  isfile fs (child file) = true ∧ json_named file.

(** [kept] holds the elements of a list that pass [P], in their order. *)
Inductive selected {A : Type} (P : A → Prop) : list A → list A → Prop :=
  | selected_nil : selected P [] []
  | selected_keep x l kept :
      P x → selected P l kept → selected P (x :: l) (x :: kept)
  | selected_skip x l kept :
      ¬ P x → selected P l kept → selected P (x :: l) kept.

(** The claim on the batch driver as the specification words it: whatever
    the exports of the directory hold, the driver returns one sort for each
    of them. *)
Definition one_sort_per_export (isoparse : string → option Z)
    (fs : FileSystem) (path : string)
    (card_mapping : option (gmap string hashable)) : Prop :=
  ∀ files child exports,
    listdir fs path = Ok files →
    (∀ file, file ∈ files → entry_path path file (child file)) →
    selected (export_entry fs child) files exports →
    ∃ sorts,
      parse_sorts_in_dir isoparse fs path card_mapping = Ok sorts
      ∧ length sorts = length exports.

(** ** Sample exports

    The examples read timestamps with [clock]: a timestamp is written as its
    count of microseconds. *)

Definition clock (text : string) : option Z :=
  Z.of_int <$> NilZero.int_of_string text.

Definition plain_data : ActionData :=
  {| data_listBefore := None; data_old := None |}.

Definition createList_at (date : string) : Action :=
  {| action_type := "createList"; action_date := date;
     action_data := plain_data |}.

Definition card_move_at (date : string) : Action :=
  {| action_type := "updateCard"; action_date := date;
     action_data := {| data_listBefore := Some "todo"; data_old := None |} |}.

Definition comment_at (date : string) : Action :=
  {| action_type := "commentCard"; action_date := date;
     action_data := plain_data |}.

Definition todo_list : TrelloList :=
  {| list_id := "todo"; list_name := "Todo"; list_pos := 1 |}.

Definition done_list : TrelloList :=
  {| list_id := "done"; list_name := "Done"; list_pos := 2 |}.

Definition open_card : Card :=
  {| card_name := "apple"; card_idList := "todo"; card_closed := false |}.

Definition closed_card : Card :=
  {| card_name := "pear"; card_idList := "done"; card_closed := true |}.

(** Two lists out of order, an open card in one and a closed card in the
    other, two creations and a card move. *)
Definition scenario_board : Board :=
  {| board_name := "Session 1";
     board_lists := [done_list; todo_list];
     board_cards := [open_card; closed_card];
     board_actions :=
       [createList_at "10"; createList_at "20"; card_move_at "30"] |}.

(** The same session, with a comment written after the last card move and
    the actions out of order. *)
Definition commented_board : Board :=
  {| board_name := "Session 2";
     board_lists := [done_list; todo_list];
     board_cards := [open_card; closed_card];
     board_actions :=
       [comment_at "45"; card_move_at "30"; createList_at "20";
        createList_at "10"] |}.

Definition todo_group (x : hashable) : Group :=
  {| group_name := "Todo"; group_cards := {[x]} |}.

Definition scenario_sort : Sort :=
  {| sort_name := "Session 1"; sort_groups := [todo_group (HStr "apple")];
     sort_duration := 20 |}.

Definition commented_sort : Sort :=
  {| sort_name := "Session 2"; sort_groups := [todo_group (HStr "apple")];
     sort_duration := 35 |}.

(** A creation spelled as the specification spells it, next to one spelled
    as the export spells it; and a list update without the [old] object. *)
Definition spelled_actions : list Action :=
  [ {| action_type := "list created"; action_date := "10";
       action_data := plain_data |};
    createList_at "20" ].

Definition bare_update : Action :=
  {| action_type := "updateList"; action_date := "30";
     action_data := plain_data |}.

(** Three lists, the first and the third under one id. *)
Definition reused_id_board : Board :=
  {| board_name := "Session 3";
     board_lists :=
       [ {| list_id := "a"; list_name := "First"; list_pos := 1 |};
         {| list_id := "b"; list_name := "Second"; list_pos := 2 |};
         {| list_id := "a"; list_name := "Third"; list_pos := 3 |} ];
     board_cards :=
       [ {| card_name := "apple"; card_idList := "a"; card_closed := false |};
         {| card_name := "pear"; card_idList := "b"; card_closed := false |} ];
     board_actions := [createList_at "10"] |}.

Definition reused_id_sort : Sort :=
  {| sort_name := "Session 3";
     sort_groups :=
       [ {| group_name := "Third"; group_cards := {[HStr "apple"]} |};
         {| group_name := "Second"; group_cards := {[HStr "pear"]} |} ];
     sort_duration := 0 |}.

Definition fruit_ids : gmap string hashable := {[ "apple" := HInt 1 ]}.

Definition mapped_sort : Sort :=
  {| sort_name := "Session 1"; sort_groups := [todo_group (HInt 1)];
     sort_duration := 20 |}.

(** The scenario with an open card whose name [fruit_ids] does not know. *)
Definition unmapped_board : Board :=
  {| board_name := "Session 4";
     board_lists := [done_list; todo_list];
     board_cards :=
       [ open_card;
         {| card_name := "kiwi"; card_idList := "done"; card_closed := false |} ];
     board_actions := [createList_at "10"; card_move_at "30"] |}.

(** A session whose only action is a card move. *)
Definition uncreated_board : Board :=
  {| board_name := "Session 5";
     board_lists := [todo_list];
     board_cards := [open_card];
     board_actions := [card_move_at "30"] |}.

(** Three lists with distinct ids, two of them at one [pos]. *)
Definition tied_board : Board :=
  {| board_name := "Session 7";
     board_lists :=
       [ {| list_id := "x"; list_name := "Later"; list_pos := 2 |};
         {| list_id := "y"; list_name := "Sooner"; list_pos := 1 |};
         {| list_id := "z"; list_name := "Latest"; list_pos := 2 |} ];
     board_cards :=
       [ {| card_name := "apple"; card_idList := "z"; card_closed := false |};
         {| card_name := "pear"; card_idList := "x"; card_closed := false |};
         {| card_name := "plum"; card_idList := "y"; card_closed := false |} ];
     board_actions := [createList_at "10"; card_move_at "12"] |}.

Definition tied_sort : Sort :=
  {| sort_name := "Session 7";
     sort_groups :=
       [ {| group_name := "Sooner"; group_cards := {[HStr "plum"]} |};
         {| group_name := "Later"; group_cards := {[HStr "pear"]} |};
         {| group_name := "Latest"; group_cards := {[HStr "apple"]} |} ];
     sort_duration := 2 |}.

(** A directory with two exports and a text file. *)
Definition exports_fs : FileSystem :=
  {| listdir := λ path,
       if decide (path = "exports")
       then Ok ["first.json"; "notes.txt"; "second.json"]
       else Raise (OSError path);
     isfile := λ path,
       bool_decide (path ∈ ["exports/first.json"; "exports/notes.txt";
                            "exports/second.json"]);
     open_json := λ path,
       if decide (path = "exports/first.json") then Ok scenario_board
       else if decide (path = "exports/second.json") then Ok commented_board
       else Raise (OSError path) |}.

(** An open card filed under a list that is not there. *)
Definition dangling_board : Board :=
  {| board_name := "Session 8";
     board_lists := [todo_list];
     board_cards :=
       [ open_card;
         {| card_name := "plum"; card_idList := "gone"; card_closed := false |};
         {| card_name := "kiwi"; card_idList := "todo"; card_closed := false |} ];
     board_actions := [comment_at "soon"] |}.

Definition closed_only_board : Board :=
  {| board_name := "Session 11";
     board_lists := [done_list; todo_list];
     board_cards := [closed_card];
     board_actions := [createList_at "10"] |}.

Definition closed_only_sort : Sort :=
  {| sort_name := "Session 11"; sort_groups := []; sort_duration := 0 |}.

(** The scenario with its cards and its first two actions swapped. *)
Definition reordered_board : Board :=
  {| board_name := "Session 1";
     board_lists := [done_list; todo_list];
     board_cards := [closed_card; open_card];
     board_actions :=
       [createList_at "20"; createList_at "10"; card_move_at "30"] |}.

(** A directory whose second export has no list creation. *)
Definition broken_fs : FileSystem :=
  {| listdir := λ path, Ok ["first.json"; "bad.json"; "second.json"];
     isfile := λ path, true;
     open_json := λ path,
       if decide (path = "exports/first.json") then Ok scenario_board
       else if decide (path = "exports/bad.json") then Ok uncreated_board
       else Ok commented_board |}.

(** A directory with a text file and a subdirectory named like an
    export. *)
Definition plain_fs : FileSystem :=
  {| listdir := λ path,
       if decide (path = "plain") then Ok ["notes.txt"; "archive.json"]
       else Raise (OSError path);
     isfile := λ path, bool_decide (path = "plain/notes.txt");
     open_json := λ path, Raise (OSError path) |}.

(** * Properties *)

(** ** The error monad *)

Lemma bind_Ok {A B} (f : A → result B) (r : result A) (b : B) :
  r ≫= f = Ok b ↔ ∃ a, r = Ok a ∧ f a = Ok b.
Proof.
  destruct r as [a|e]; simpl; split.
  - intros H. by exists a.
  - by intros (a' & [= <-] & H).
  - done.
  - by intros (a' & [=] & _).
Qed.

Lemma from_option_Ok {A} e (o : option A) a :
  from_option e o = Ok a ↔ o = Some a.
Proof. destruct o; simpl; split; congruence. Qed.

Lemma result_cases {A} (r : result A) : succeeds r ∨ raises r.
Proof. destruct r; [left | right]; eexists; done. Qed.

Lemma raises_not_succeeds {A} (r : result A) : raises r ↔ ¬ succeeds r.
Proof.
  unfold raises, succeeds. destruct r as [a|e]; split.
  - by intros [e [=]].
  - intros H. destruct H. by exists a.
  - by intros _ [a [=]].
  - intros _. by exists e.
Qed.

(** ** The stable sort *)

Section ListSortFacts.
Context {A K : Type} (key : A → K) (leb : K → K → bool).
Hypothesis leb_total : ∀ a b, leb a b = true ∨ leb b a = true.
Hypothesis leb_trans :
  ∀ a b c, leb a b = true → leb b c = true → leb a c = true.

Abbreviation ins := (sort_insert key leb).
Abbreviation srt := (list_sort key leb).
Abbreviation le := (key_le key leb).

Lemma sort_insert_perm x l : ins x l ≡ₚ x :: l.
Proof.
  induction l as [|y l IH]; simpl; [done|].
  destruct (leb (key x) (key y)); [done|].
  rewrite IH. apply Permutation_swap.
Qed.

Lemma list_sort_perm l : srt l ≡ₚ l.
Proof.
  induction l as [|x l IH]; simpl; [done|].
  by rewrite sort_insert_perm, IH.
Qed.

Lemma elem_of_list_sort x l : x ∈ srt l ↔ x ∈ l.
Proof. by rewrite list_sort_perm. Qed.

Lemma sort_insert_sorted x l :
  StronglySorted le l → StronglySorted le (ins x l).
Proof using leb_total leb_trans.
  induction 1 as [|y l Hl IH Hy]; simpl.
  - repeat constructor.
  - destruct (leb (key x) (key y)) eqn:Hxy.
    + constructor; [by constructor|].
      constructor; [done|].
      eapply Forall_impl; [exact Hy|]. intros z Hz. by eapply leb_trans.
    + constructor; [done|].
      rewrite sort_insert_perm. constructor; [|done].
      destruct (leb_total (key x) (key y)); [congruence|done].
Qed.

Lemma list_sort_sorted l : StronglySorted le (srt l).
Proof using leb_total leb_trans.
  induction l; simpl; [constructor|by apply sort_insert_sorted].
Qed.

(** Stability: the elements of one key keep their order. *)
Lemma sort_insert_same_key k x l :
  filter (same_key key leb k) (ins x l) = filter (same_key key leb k) (x :: l).
Proof using leb_trans.
  induction l as [|y l IH]; simpl; [done|].
  destruct (leb (key x) (key y)) eqn:Hxy; [done|].
  rewrite !filter_cons in *.
  destruct (decide (same_key key leb k y)) as [[Hy1 Hy2]|Hy].
  - destruct (decide (same_key key leb k x)) as [[Hx1 Hx2]|Hx].
    + rewrite (leb_trans _ _ _ Hx1 Hy2) in Hxy. done.
    + by rewrite IH.
  - by rewrite IH.
Qed.

Lemma list_sort_stable k l :
  filter (same_key key leb k) (srt l) = filter (same_key key leb k) l.
Proof using leb_trans.
  induction l as [|x l IH]; simpl; [done|].
  rewrite sort_insert_same_key, !filter_cons. by rewrite IH.
Qed.

Lemma sort_insert_least x l : Forall (le x) l → ins x l = x :: l.
Proof. destruct 1 as [|y l Hy _]; simpl; [done|]. by rewrite Hy. Qed.

(** Sorting a sorted list moves nothing. *)
Lemma list_sort_sorted_id l : StronglySorted le l → srt l = l.
Proof.
  induction 1 as [|x l Hl IH Hx]; simpl; [done|].
  rewrite IH. by apply sort_insert_least.
Qed.

Lemma list_sort_idemp l : srt (srt l) = srt l.
Proof using leb_total leb_trans.
  apply list_sort_sorted_id, list_sort_sorted.
Qed.

Lemma sorted_last_greatest l x y :
  StronglySorted le l → x ∈ l → last l = Some y → x = y ∨ le x y.
Proof.
  induction 1 as [|z l Hl IH Hz]; intros Hx Hy; [by apply elem_of_nil in Hx|].
  destruct l as [|z' l'].
  - apply list_elem_of_singleton in Hx. simpl in Hy. left. congruence.
  - change (last (z :: z' :: l')) with (last (z' :: l')) in Hy.
    apply elem_of_cons in Hx as [->|Hx]; [|by apply IH].
    right. rewrite Forall_forall in Hz. apply Hz.
    by apply last_Some_elem_of.
Qed.
End ListSortFacts.

(** ** Loops that append *)

Section AppendLoop.
Context {A B : Type} (f : A → result B).

Abbreviation append_body :=
  (λ (acc : list B) (x : A), y ← f x; Ok (acc ++ [y])).

Lemma for_each_append_Ok l acc r :
  for_each append_body l acc = Ok r ↔
  ∃ ys, r = acc ++ ys ∧ Forall2 (λ x y, f x = Ok y) l ys.
Proof.
  revert acc. induction l as [|x l IH]; intros acc; simpl.
  - split.
    + intros [= <-]. exists []. by rewrite app_nil_r.
    + intros (ys & -> & Hys). apply Forall2_nil_inv_l in Hys as ->.
      by rewrite app_nil_r.
  - rewrite bind_Ok. split.
    + intros (acc' & Hx & Hl). apply bind_Ok in Hx as (y & Hy & [= <-]).
      apply IH in Hl as (ys & -> & Hys).
      exists (y :: ys). split; [by rewrite <-app_assoc|by constructor].
    + intros (ys & -> & Hys).
      apply Forall2_cons_inv_l in Hys as (y & ys' & Hy & Hys' & ->).
      exists (acc ++ [y]). rewrite Hy. split; [done|].
      apply IH. exists ys'. by rewrite <-app_assoc.
Qed.

Lemma for_each_append_succeeds l acc :
  Forall (λ x, succeeds (f x)) l → succeeds (for_each append_body l acc).
Proof.
  intros Hl. revert acc. induction Hl as [|x l [y Hy] _ IH]; intros acc; simpl.
  - by exists acc.
  - rewrite Hy. apply IH.
Qed.
End AppendLoop.

(** ** The dictionary *)

Section DictFacts.
Context {V : Type}.
Implicit Types (d : list (string * V)) (k : string) (v : V).

Lemma dict_get_None k d : dict_get k d = None ↔ k ∉ dict_keys d.
Proof.
  unfold dict_keys. induction d as [|[k' v'] d IH]; simpl.
  - split; [intros _; apply not_elem_of_nil|done].
  - rewrite not_elem_of_cons. destruct (decide (k' = k)) as [->|Hne].
    + split; [done|]. by intros [? _].
    + rewrite IH. split; [by intros ?; split|by intros [_ ?]].
Qed.

Lemma dict_get_Some k d v : dict_get k d = Some v → (k, v) ∈ d.
Proof.
  induction d as [|[k' v'] d IH]; simpl; [done|].
  destruct (decide (k' = k)) as [->|Hne].
  - intros [= ->]. apply elem_of_cons. by left.
  - intros H. apply elem_of_cons. right. by apply IH.
Qed.

Lemma dict_set_fresh k v d : dict_get k d = None → dict_set k v d = d ++ [(k, v)].
Proof.
  induction d as [|[k' v'] d IH]; simpl; [done|].
  destruct (decide (k' = k)); [done|]. intros H. by rewrite IH.
Qed.

(** Assigning to a present key changes that slot only. *)
Lemma dict_set_present k (g : V → V) d v :
  NoDup (dict_keys d) → dict_get k d = Some v →
  dict_set k (g v) d
  = (λ slot, if decide (slot.1 = k) then (slot.1, g slot.2) else slot) <$> d.
Proof.
  unfold dict_keys. induction d as [|[k' v'] d IH]; simpl; [done|].
  intros Hnd Hget. apply NoDup_cons in Hnd as [Hk' Hnd].
  destruct (decide (k' = k)) as [->|Hne].
  - injection Hget as ->. f_equal.
    rewrite <-(list_fmap_id d) at 1. apply list_fmap_ext.
    intros i [k2 v2] Hi. simpl. destruct (decide (k2 = k)) as [->|]; [|done].
    destruct Hk'. apply list_elem_of_fmap. exists (k, v2).
    split; [done|]. by eapply list_elem_of_lookup_2.
  - f_equal. by apply IH.
Qed.

Lemma dict_keys_set k v d :
  dict_keys (dict_set k v d)
  = if decide (k ∈ dict_keys d) then dict_keys d else dict_keys d ++ [k].
Proof.
  unfold dict_keys. induction d as [|[k' v'] d IH]; csimpl; [done|].
  destruct (decide (k' = k)) as [->|Hne]; csimpl.
  - rewrite decide_True; [done|]. apply elem_of_cons. by left.
  - rewrite IH. destruct (decide (k ∈ d.*1)) as [Hin|Hnin].
    + rewrite decide_True; [done|]. apply elem_of_cons. by right.
    + rewrite decide_False; [done|]. rewrite not_elem_of_cons. by split.
Qed.

Lemma dict_set_NoDup k v d :
  NoDup (dict_keys d) → NoDup (dict_keys (dict_set k v d)).
Proof.
  intros Hnd. rewrite dict_keys_set. case_decide; [done|].
  apply NoDup_app. split_and!; [done| |apply NoDup_singleton].
  intros x Hx ->%list_elem_of_singleton. done.
Qed.

Lemma dict_values_set k v d x :
  x ∈ dict_values (dict_set k v d) → x = v ∨ x ∈ dict_values d.
Proof.
  unfold dict_values. induction d as [|[k' v'] d IH]; simpl.
  - intros ->%list_elem_of_singleton. by left.
  - destruct (decide (k' = k)); simpl; rewrite !elem_of_cons.
    + intros [->|?]; auto.
    + intros [->|H]; [auto|]. destruct (IH H); auto.
Qed.
End DictFacts.

(** ** Groups and cards *)

Lemma elem_of_identifiers m cards k x :
  x ∈ identifiers m cards k ↔
  ∃ card, card ∈ cards ∧ card_idList card = k ∧ card_data_of m card = Ok x.
Proof.
  unfold identifiers. rewrite elem_of_list_to_set, list_elem_of_omap.
  split; intros (card & Hin & H); exists card.
  - destruct (decide (card_idList card = k)); [|done].
    destruct (card_data_of m card); by simplify_eq.
  - destruct H as [Hk Hx]. rewrite decide_True by done. by rewrite Hx.
Qed.

Lemma elem_of_cards_of m cards k x :
  x ∈ cards_of m cards k ↔
  ∃ card, card ∈ cards ∧ is_open card ∧ card_idList card = k
          ∧ card_data_of m card = Ok x.
Proof.
  unfold cards_of. rewrite elem_of_identifiers.
  split; intros (card & H); exists card; rewrite list_elem_of_filter in *;
    tauto.
Qed.

Lemma make_groups_NoDup trello_lists : NoDup (dict_keys (make_groups trello_lists)).
Proof.
  unfold make_groups. generalize (NoDup_nil_2 (A := string)).
  change (@nil string) with (dict_keys (@nil (string * Group))).
  generalize (@nil (string * Group)) as acc.
  induction trello_lists as [|l ls IH]; intros acc Hacc; [done|].
  simpl. by apply IH, dict_set_NoDup.
Qed.

Lemma make_groups_empty trello_lists :
  Forall (λ group, group_cards group = ∅) (dict_values (make_groups trello_lists)).
Proof.
  unfold make_groups.
  assert (Forall (λ group, group_cards group = ∅)
            (dict_values (@nil (string * Group)))) as Hnil by constructor.
  revert Hnil. generalize (@nil (string * Group)) as acc.
  induction trello_lists as [|l ls IH]; intros acc Hacc; [done|].
  simpl. apply IH. rewrite Forall_forall in *.
  intros g [->|Hg]%dict_values_set; [done|by apply Hacc].
Qed.

(** With pairwise distinct ids the dictionary has one slot per list, in the
    order of the lists. *)
Lemma make_groups_distinct trello_lists :
  NoDup (list_id <$> trello_lists) →
  make_groups trello_lists = slot_of <$> trello_lists.
Proof.
  unfold make_groups. intros Hnd.
  rewrite <-(app_nil_l (slot_of <$> trello_lists)).
  assert (NoDup (dict_keys (@nil (string * Group)) ++ (list_id <$> trello_lists)))
    as Hacc by done.
  revert Hacc. clear Hnd. generalize (@nil (string * Group)) as acc.
  induction trello_lists as [|l ls IH]; intros acc Hacc; csimpl.
  - by rewrite app_nil_r.
  - apply NoDup_app in Hacc as (Hacc & Hdisj & Hls).
    apply NoDup_cons in Hls as [Hl Hls].
    rewrite dict_set_fresh.
    + rewrite IH.
      * by rewrite <-app_assoc.
      * unfold dict_keys in *. rewrite fmap_app. csimpl.
        apply NoDup_app. split_and!; [|intros x|done].
        -- apply NoDup_app. split_and!; [done| |apply NoDup_singleton].
           intros x Hx ->%list_elem_of_singleton.
           apply (Hdisj _ Hx). apply elem_of_cons. by left.
        -- rewrite elem_of_app, list_elem_of_singleton.
           intros [Hx| ->]; [|done].
           intros Hx'. apply (Hdisj _ Hx). apply elem_of_cons. by right.
    + apply dict_get_None. intros Hin. apply (Hdisj _ Hin).
      apply elem_of_cons. by left.
Qed.

Lemma fill_nil m slot : fill m [] slot = slot.
Proof.
  destruct slot as [k [name cards]]. unfold fill, identifiers. simpl.
  by rewrite (left_id_L ∅ (∪)).
Qed.

Lemma fill_cons m card cards slot x :
  card_data_of m card = Ok x →
  fill m cards
    (if decide (slot.1 = card_idList card)
     then (slot.1, cards_add x slot.2) else slot)
  = fill m (card :: cards) slot.
Proof.
  intros Hx. destruct slot as [k [name cs]]. simpl.
  destruct (decide (k = card_idList card)) as [->|Hne];
    unfold fill; simpl; do 2 f_equal; apply set_eq; intros y;
    rewrite !elem_of_union, ?elem_of_singleton, !elem_of_identifiers.
  - split.
    + intros [(c & Hc & Hk & Hy)|[->|Hy]]; [| |by right].
      * left. exists c. split; [by apply elem_of_cons; right|done].
      * left. exists card. split; [by apply elem_of_cons; left|done].
    + intros [(c & [->|Hc]%elem_of_cons & Hk & Hy)|Hy]; [| |by auto].
      * right. left. congruence.
      * left. by exists c.
  - split.
    + intros [(c & Hc & Hk & Hy)|Hy]; [|by right].
      left. exists c. split; [by apply elem_of_cons; right|done].
    + intros [(c & [->|Hc]%elem_of_cons & Hk & Hy)|Hy]; [done| |by right].
      left. by exists c.
Qed.

(** The card loop keeps every slot where it is and adds to it the
    identifiers of the cards filed under its key. *)
Lemma assign_cards_fill m cards d d' :
  NoDup (dict_keys d) → assign_cards m cards d = Ok d' → d' = fill m cards <$> d.
Proof.
  unfold assign_cards. revert d.
  induction cards as [|card cards IH]; intros d Hnd; simpl.
  - intros [= <-]. rewrite <-(list_fmap_id d) at 1.
    apply list_fmap_ext. intros ???. by rewrite fill_nil.
  - intros H. apply bind_Ok in H as (d1 & Hbody & H).
    apply bind_Ok in Hbody as (group & Hget & Hbody).
    apply bind_Ok in Hbody as (x & Hx & [= <-]).
    apply from_option_Ok in Hget.
    rewrite (dict_set_present _ (cards_add x) _ group) in H by done.
    apply IH in H.
    + rewrite H, <-list_fmap_compose. apply list_fmap_ext.
      intros i slot _. simpl. by apply fill_cons.
    + unfold dict_keys in *. rewrite <-list_fmap_compose.
      erewrite list_fmap_ext; [exact Hnd|].
      intros i slot _. simpl. by destruct (decide _).
Qed.

Lemma assign_cards_data m cards d d' :
  assign_cards m cards d = Ok d' →
  Forall (λ card, succeeds (card_data_of m card)) cards.
Proof.
  unfold assign_cards. revert d.
  induction cards as [|card cards IH]; intros d; simpl; [by constructor|].
  intros H. apply bind_Ok in H as (d1 & Hbody & H).
  apply bind_Ok in Hbody as (group & Hget & Hbody).
  apply bind_Ok in Hbody as (x & Hx & _).
  constructor; [by exists x|by eapply IH].
Qed.

(** ** The two orders *)

Lemma Zleb_total a b : Z.leb a b = true ∨ Z.leb b a = true.
Proof. rewrite !Z.leb_le. lia. Qed.

Lemma Zleb_trans a b c : Z.leb a b = true → Z.leb b c = true → Z.leb a c = true.
Proof. rewrite !Z.leb_le. lia. Qed.

Lemma Qleb_total a b : Qle_bool a b = true ∨ Qle_bool b a = true.
Proof.
  rewrite !Qle_bool_iff. destruct (Qlt_le_dec a b) as [H|H]; [left|by right].
  by apply Qlt_le_weak.
Qed.

Lemma Qleb_trans a b c :
  Qle_bool a b = true → Qle_bool b c = true → Qle_bool a c = true.
Proof. rewrite !Qle_bool_iff. apply Qle_trans. Qed.

Lemma pos_is_same_key p l : pos_is p l ↔ same_key list_pos Qle_bool p l.
Proof.
  unfold pos_is, same_key. rewrite Qeq_bool_iff, !Qle_bool_iff. split.
  - intros H. rewrite H. split; apply Qle_refl.
  - intros [H1 H2]. by apply Qle_antisym.
Qed.

(** Sorting pairs on their first component and dropping it is sorting on
    the key. *)
Lemma sort_insert_decorated {A K} (f : A → K) (leb : K → K → bool) x (l : list A) :
  sort_insert fst leb (f x, x) ((λ a, (f a, a)) <$> l)
  = (λ a, (f a, a)) <$> sort_insert f leb x l.
Proof.
  induction l as [|y l IH]; csimpl; [done|].
  destruct (leb (f x) (f y)); csimpl; [done|]. by rewrite IH.
Qed.

Lemma list_sort_decorated {A K} (f : A → K) (leb : K → K → bool) (l : list A) :
  (list_sort fst leb ((λ a, (f a, a)) <$> l)).*2 = list_sort f leb l.
Proof.
  assert (list_sort fst leb ((λ a, (f a, a)) <$> l)
          = (λ a, (f a, a)) <$> list_sort f leb l) as ->.
  { induction l as [|x l IH]; csimpl; [done|].
    by rewrite IH, sort_insert_decorated. }
  rewrite <-list_fmap_compose. apply list_fmap_id.
Qed.

Lemma StronglySorted_filter {A} (R : relation A) (P : A → Prop)
    `{∀ x, Decision (P x)} (l : list A) :
  StronglySorted R l → StronglySorted R (filter P l).
Proof.
  induction 1 as [|x l Hl IH Hx]; [constructor|].
  rewrite filter_cons. destruct (decide (P x)); [|done].
  constructor; [done|]. rewrite Forall_forall in *.
  intros y [_ Hy]%list_elem_of_filter. by apply Hx.
Qed.

Lemma filter_fmap {A B} (f : A → B) (P : B → Prop) `{∀ y, Decision (P y)}
    (l : list A) :
  filter P (f <$> l) = f <$> filter (P ∘ f) l.
Proof.
  induction l as [|x l IH]; csimpl; [done|].
  rewrite !filter_cons. simpl. destruct (decide (P (f x))); csimpl; by rewrite IH.
Qed.

(** In a sorted list the first element with a property is a least one. *)
Lemma sorted_head_filter_least {A} (R : relation A) (P : A → Prop)
    `{∀ x, Decision (P x)} (l : list A) x :
  StronglySorted R l → head (filter P l) = Some x →
  x ∈ l ∧ P x ∧ ∀ a, a ∈ l → P a → a = x ∨ R x a.
Proof.
  induction 1 as [|z l Hl IH Hz]; [done|].
  rewrite filter_cons. destruct (decide (P z)) as [Hp|Hp]; simpl.
  - intros [= ->]. split_and!; [by apply elem_of_cons; left|done|].
    intros a [->|Ha]%elem_of_cons _; [by left|right].
    rewrite Forall_forall in Hz. by apply Hz.
  - intros Hx. destruct (IH Hx) as (Hin & Hpx & Hleast).
    split_and!; [by apply elem_of_cons; right|done|].
    intros a [->|Ha]%elem_of_cons Hpa; [done|by apply Hleast].
Qed.

(** ** The extractor, step by step *)

Lemma keep_action_Ok action keep :
  keep_action action = Ok keep → (keep = true ↔ retained action).
Proof.
  unfold keep_action, retained.
  destruct (decide (action_type action = "updateCard" ∧ _)) as [H1|H1].
  { intros [= <-]. split; [by left|done]. }
  destruct (decide (action_type action = "createList")) as [H2|H2].
  { intros [= <-]. split; [by right; left|done]. }
  destruct (decide (action_type action = "updateList")) as [H3|H3].
  - destruct (data_old (action_data action)) as [old|]; simpl; [|done].
    intros [= <-]. rewrite bool_decide_eq_true. split.
    + intros H. right. right. done.
    + intros [?|[?|[_ ?]]]; done.
  - intros [= <-]. split; [done|]. intros [?|[?|[? _]]]; done.
Qed.

Lemma keep_action_Raise action :
  raises (keep_action action) ↔
  action_type action = "updateList" ∧ data_old (action_data action) = None.
Proof.
  unfold keep_action, raises.
  destruct (decide (action_type action = "updateCard" ∧ _)) as [[H1 _]|H1].
  { split; [by intros [e [=]]|]. intros [H _]. congruence. }
  destruct (decide (action_type action = "createList")) as [H2|H2].
  { split; [by intros [e [=]]|]. intros [H _]. congruence. }
  destruct (decide (action_type action = "updateList")) as [H3|H3].
  - destruct (data_old (action_data action)) as [old|]; simpl.
    + split; [by intros [e [=]]|by intros [_ [=]]].
    + split; [done|]. intros _. by eexists.
  - split; [by intros [e [=]]|]. by intros [? _].
Qed.

Abbreviation valid_body :=
  (λ (valid : list Action) (action : Action),
     keep ← keep_action action;
     Ok (if keep : bool then valid ++ [action] else valid)).

Lemma valid_loop_Ok actions acc valid :
  for_each valid_body actions acc = Ok valid →
  valid = acc ++ filter retained actions.
Proof.
  revert acc. induction actions as [|a l IH]; intros acc.
  - simpl. intros [= <-]. by rewrite app_nil_r.
  - simpl. intros H. apply bind_Ok in H as (acc' & Ha & H).
    apply bind_Ok in Ha as (keep & Hkeep & [= <-]).
    apply keep_action_Ok in Hkeep. apply IH in H. rewrite H, filter_cons.
    destruct keep.
    + rewrite decide_True by by apply Hkeep. by rewrite <-app_assoc.
    + rewrite decide_False; [done|]. intros Hr. by apply Hkeep in Hr.
Qed.

Lemma valid_loop_Raise actions acc :
  raises (for_each valid_body actions acc) ↔
  ∃ action, action ∈ actions ∧ action_type action = "updateList"
            ∧ data_old (action_data action) = None.
Proof.
  revert acc. induction actions as [|a l IH]; intros acc; simpl.
  - split; [by intros [e [=]]|]. by intros (a & ?%elem_of_nil & _).
  - destruct (keep_action a) as [keep|e] eqn:Hkeep; simpl.
    + rewrite IH. split.
      * intros (b & Hb & H). exists b. split; [by apply elem_of_cons; right|done].
      * intros (b & [->|Hb]%elem_of_cons & H); [|by exists b].
        apply keep_action_Raise in H as [e He]. congruence.
    + split; [|by intros _; exists e].
      intros _. exists a. split; [by apply elem_of_cons; left|].
      apply keep_action_Raise. by exists e.
Qed.

Lemma valid_actions_Ok actions valid :
  valid_actions actions = Ok valid → valid = filter retained actions.
Proof. apply valid_loop_Ok. Qed.

Lemma valid_actions_Raise actions :
  raises (valid_actions actions) ↔
  ∃ action, action ∈ actions ∧ action_type action = "updateList"
            ∧ data_old (action_data action) = None.
Proof. apply valid_loop_Raise. Qed.

Section ExtractorFacts.
Variable isoparse : string → option Z.

Abbreviation instant_of := (instant isoparse).
Abbreviation date_le := (key_le instant_of Z.leb).

Lemma parse_date_Ok action t :
  parse_date isoparse action = Ok t ↔ dated isoparse action t.
Proof. apply from_option_Ok. Qed.

Lemma dated_instant action t : dated isoparse action t → instant_of action = t.
Proof. unfold dated, instant. by intros ->. Qed.

Lemma readable_dated action :
  readable isoparse action → dated isoparse action (instant_of action).
Proof. unfold readable, dated, instant. by intros [t ->]. Qed.

Lemma keys_of_actions actions keys :
  Forall2 (λ action key, parse_date isoparse action = Ok key) actions keys ↔
  Forall (readable isoparse) actions ∧ keys = instant_of <$> actions.
Proof.
  split.
  - induction 1 as [|a t l ks Ha _ [IH1 IH2]]; [by split|].
    apply parse_date_Ok in Ha. split.
    + constructor; [by exists t|done].
    + csimpl. by rewrite (dated_instant _ _ Ha), IH2.
  - intros [Hl ->]. induction Hl as [|a l Ha _ IH]; csimpl; [constructor|].
    constructor; [|done]. by apply parse_date_Ok, readable_dated.
Qed.

Lemma zip_keys (actions : list Action) :
  zip (instant_of <$> actions) actions
  = (λ action, (instant_of action, action)) <$> actions.
Proof. induction actions as [|a l IH]; csimpl; [done|]. by rewrite IH. Qed.

Lemma sort_actions_Ok actions sorted :
  sort_actions isoparse actions = Ok sorted ↔
  Forall (readable isoparse) actions
  ∧ sorted = list_sort instant_of Z.leb actions.
Proof.
  unfold sort_actions. rewrite bind_Ok. split.
  - intros (keys & Hkeys & [= <-]).
    apply for_each_append_Ok in Hkeys as (ys & -> & Hys).
    apply keys_of_actions in Hys as [Hl ->]. split; [done|].
    simpl. by rewrite zip_keys, list_sort_decorated.
  - intros [Hl ->]. exists (instant_of <$> actions). split.
    + apply for_each_append_Ok. exists (instant_of <$> actions).
      split; [done|]. by apply keys_of_actions.
    + by rewrite zip_keys, list_sort_decorated.
Qed.

Lemma sort_actions_perm actions sorted :
  sort_actions isoparse actions = Ok sorted → sorted ≡ₚ actions.
Proof. intros [_ ->]%sort_actions_Ok. apply list_sort_perm. Qed.

Lemma sort_actions_sorted actions sorted :
  sort_actions isoparse actions = Ok sorted → StronglySorted date_le sorted.
Proof.
  intros [_ ->]%sort_actions_Ok.
  apply list_sort_sorted; [apply Zleb_total|apply Zleb_trans].
Qed.

Lemma filter_createList_retained (actions : list Action) :
  filter is_createList (filter retained actions) = filter is_createList actions.
Proof.
  rewrite list_filter_filter. apply list_filter_iff.
  intros a. unfold retained, is_createList. tauto.
Qed.

(** What a run that returns has gone through. *)
Lemma parse_board_Ok data card_mapping sort :
  parse_board isoparse data card_mapping = Ok sort →
  ∃ groups_by_id sorted first_list last_action,
    assign_cards card_mapping (filter is_open (board_cards data))
      (make_groups (sort_lists (board_lists data))) = Ok groups_by_id
    ∧ sort_actions isoparse (board_actions data) = Ok sorted
    ∧ valid_actions sorted = Ok (filter retained sorted)
    ∧ head (filter is_createList sorted) = Some first_list
    ∧ last sorted = Some last_action
    ∧ sort = {| sort_name := board_name data;
                sort_groups := filter (λ group, group_cards group ≠ ∅)
                                 (dict_values groups_by_id);
                sort_duration := instant_of last_action - instant_of first_list |}.
Proof.
  unfold parse_board. intros H.
  apply bind_Ok in H as (groups_by_id & Hgroups & H).
  apply bind_Ok in H as (sorted & Hsorted & H).
  apply bind_Ok in H as (valid & Hvalid & H).
  apply bind_Ok in H as (first_list & Hfirst & H).
  apply bind_Ok in H as (start_time & Hstart & H).
  apply bind_Ok in H as (last_action & Hlast & H).
  apply bind_Ok in H as (end_time & Hend & [= <-]).
  pose proof (valid_actions_Ok _ _ Hvalid) as ->.
  apply from_option_Ok in Hfirst, Hlast.
  rewrite filter_createList_retained in Hfirst.
  apply parse_date_Ok, dated_instant in Hstart, Hend. subst.
  by exists groups_by_id, sorted, first_list, last_action.
Qed.
End ExtractorFacts.

(** ** The session window *)

Section SessionWindow.
Variable isoparse : string → option Z.

Lemma last_action_latest actions sorted last_action :
  sort_actions isoparse actions = Ok sorted →
  last sorted = Some last_action →
  last_action ∈ actions
  ∧ dated isoparse last_action (instant isoparse last_action)
  ∧ ∀ a t, a ∈ actions → dated isoparse a t → t ≤ instant isoparse last_action.
Proof.
  intros Hsort Hlast.
  pose proof (sort_actions_perm _ _ _ Hsort) as Hperm.
  pose proof (sort_actions_sorted _ _ _ Hsort) as Hsorted.
  apply sort_actions_Ok in Hsort as [Hread _].
  rewrite Forall_forall in Hread.
  assert (last_action ∈ actions) as Hin.
  { rewrite <-Hperm. by apply last_Some_elem_of. }
  split_and!; [done|by apply readable_dated, Hread|].
  intros a t Ha Ht. rewrite <-Hperm in Ha.
  rewrite <-(dated_instant _ _ _ Ht).
  destruct (sorted_last_greatest _ _ _ _ _ Hsorted Ha Hlast) as [->|Hle].
  - lia.
  - by apply Z.leb_le.
Qed.

Lemma first_list_earliest actions sorted first_list :
  sort_actions isoparse actions = Ok sorted →
  head (filter is_createList sorted) = Some first_list →
  first_list ∈ actions ∧ is_createList first_list
  ∧ dated isoparse first_list (instant isoparse first_list)
  ∧ ∀ a t, a ∈ actions → is_createList a → dated isoparse a t →
      instant isoparse first_list ≤ t.
Proof.
  intros Hsort Hhead.
  pose proof (sort_actions_perm _ _ _ Hsort) as Hperm.
  pose proof (sort_actions_sorted _ _ _ Hsort) as Hsorted.
  apply sort_actions_Ok in Hsort as [Hread _].
  rewrite Forall_forall in Hread.
  destruct (sorted_head_filter_least _ _ _ _ Hsorted Hhead)
    as (Hin & Hcreate & Hleast).
  rewrite Hperm in Hin.
  split_and!; [done|done|by apply readable_dated, Hread|].
  intros a t Ha Hc Ht. rewrite <-Hperm in Ha.
  rewrite <-(dated_instant _ _ _ Ht).
  destruct (Hleast a Ha Hc) as [->|Hle]; [lia|by apply Z.leb_le].
Qed.

(** C1.  On every document the extractor accepts, the duration of the
    returned sort is the instant of the last action of the whole
    date-sorted action sequence, whatever its kind, minus the instant of
    the earliest retained list-creation action. *)
Theorem duration_is_last_action_minus_first_creation data card_mapping sort :
  parse_board isoparse data card_mapping = Ok sort →
  ∃ sorted first_list last_action t0 t1,
    sort_actions isoparse (board_actions data) = Ok sorted
    ∧ last sorted = Some last_action
    ∧ dated isoparse last_action t1
    ∧ (∀ a t, a ∈ board_actions data → dated isoparse a t → t ≤ t1)
    ∧ first_list ∈ board_actions data
    ∧ retained first_list ∧ is_createList first_list
    ∧ dated isoparse first_list t0
    ∧ (∀ a t, a ∈ board_actions data → retained a → is_createList a →
         dated isoparse a t → t0 ≤ t)
    ∧ sort_duration sort = t1 - t0.
Proof.
  intros (d & sorted & first_list & last_action & _ & Hsort & _ & Hfirst
          & Hlast & ->)%parse_board_Ok.
  destruct (last_action_latest _ _ _ Hsort Hlast) as (_ & Ht1 & Hmax).
  destruct (first_list_earliest _ _ _ Hsort Hfirst)
    as (Hin & Hcreate & Ht0 & Hmin).
  exists sorted, first_list, last_action,
    (instant isoparse first_list), (instant isoparse last_action).
  split_and!; try done.
  - right. by left.
  - intros a t Ha _. by apply Hmin.
Qed.

(** C10.  On every document the extractor accepts, the duration of the
    returned sort is not negative. *)
Theorem duration_nonnegative data card_mapping sort :
  parse_board isoparse data card_mapping = Ok sort → 0 ≤ sort_duration sort.
Proof.
  intros (d & sorted & first_list & last_action & _ & Hsort & _ & Hfirst
          & Hlast & ->)%parse_board_Ok.
  destruct (last_action_latest _ _ _ Hsort Hlast) as (_ & _ & Hmax).
  destruct (first_list_earliest _ _ _ Hsort Hfirst) as (Hin & _ & Ht0 & _).
  simpl. specialize (Hmax _ _ Hin Ht0). lia.
Qed.

(** C7.  A document whose actions hold no list creation is refused: the
    extractor raises and returns no sort, whatever the lists, the cards
    and the other actions are. *)
Theorem no_createList_raises data card_mapping :
  (∀ action, action ∈ board_actions data → ¬ is_createList action) →
  raises (parse_board isoparse data card_mapping).
Proof.
  intros Hnone. apply raises_not_succeeds. intros [sort Hsort].
  apply parse_board_Ok in Hsort
    as (d & sorted & first_list & last_action & _ & Hsort & _ & Hfirst & _).
  destruct (first_list_earliest _ _ _ Hsort Hfirst) as (Hin & Hcreate & _).
  by apply (Hnone first_list).
Qed.

(** C5.  On every document the extractor accepts, every group of the
    returned sort holds at least one card. *)
Theorem groups_nonempty data card_mapping sort :
  parse_board isoparse data card_mapping = Ok sort →
  Forall (λ group, group_cards group ≠ ∅) (sort_groups sort).
Proof.
  intros (d & sorted & first_list & last_action & _ & _ & _ & _ & _ & ->)
    %parse_board_Ok.
  simpl. apply Forall_forall. by intros g [Hg _]%list_elem_of_filter.
Qed.
End SessionWindow.

Example scenario_extracted : parse_board clock scenario_board None = Ok scenario_sort.
Proof. vm_compute. reflexivity. Qed.

Example commented_extracted :
  parse_board clock commented_board None = Ok commented_sort.
Proof. vm_compute. reflexivity. Qed.

(** ** The groups of a returned sort *)

Section ReturnedGroups.
Variable isoparse : string → option Z.

Lemma sort_groups_filled data card_mapping sort :
  parse_board isoparse data card_mapping = Ok sort →
  sort_groups sort
  = filter (λ group, group_cards group ≠ ∅)
      (dict_values (fill card_mapping (filter is_open (board_cards data))
                      <$> make_groups (sort_lists (board_lists data)))).
Proof.
  intros (d & sorted & first_list & last_action & Hd & _ & _ & _ & _ & ->)
    %parse_board_Ok.
  simpl. by rewrite (assign_cards_fill _ _ _ _ (make_groups_NoDup _) Hd).
Qed.

Lemma filled_slot_cards card_mapping data trello_lists slot :
  slot ∈ make_groups trello_lists →
  group_cards (fill card_mapping (filter is_open (board_cards data)) slot).2
  = cards_of card_mapping (board_cards data) slot.1.
Proof.
  intros Hslot. pose proof (make_groups_empty trello_lists) as Hempty.
  rewrite Forall_forall in Hempty. unfold fill, cards_of. simpl.
  rewrite (Hempty slot.2), (right_id_L ∅ (∪)); [done|].
  unfold dict_values. by apply list_elem_of_fmap_2.
Qed.

(** Every identifier of a returned group is the identifier of an open
    card. *)
Lemma group_cards_from_open_cards data card_mapping sort group x :
  parse_board isoparse data card_mapping = Ok sort →
  group ∈ sort_groups sort → x ∈ group_cards group →
  ∃ card, card ∈ board_cards data ∧ is_open card
          ∧ card_data_of card_mapping card = Ok x.
Proof.
  intros Hsort Hgroup Hx. rewrite (sort_groups_filled _ _ _ Hsort) in Hgroup.
  apply list_elem_of_filter in Hgroup as [_ Hgroup]. unfold dict_values in Hgroup.
  apply list_elem_of_fmap in Hgroup as (filled & -> & Hfilled).
  apply list_elem_of_fmap in Hfilled as (slot & -> & Hslot).
  rewrite (filled_slot_cards _ _ _ _ Hslot) in Hx.
  apply elem_of_cards_of in Hx as (card & ? & ? & _ & ?). by exists card.
Qed.

(** C6.  No closed card puts an identifier into a returned group, wherever
    its [idList] points: every identifier of a returned group is that of
    an open card of the document, and the extractor gives the same outcome
    when the closed cards are taken out of the document. *)
Theorem closed_cards_contribute_nothing data card_mapping :
  parse_board isoparse (discard_closed data) card_mapping
  = parse_board isoparse data card_mapping
  ∧ ∀ sort group x,
      parse_board isoparse data card_mapping = Ok sort →
      group ∈ sort_groups sort → x ∈ group_cards group →
      ∃ card, card ∈ board_cards data ∧ card_closed card = false
              ∧ card_data_of card_mapping card = Ok x.
Proof.
  split.
  - unfold parse_board, discard_closed. simpl.
    rewrite list_filter_filter.
    rewrite (list_filter_iff (λ card, card_closed card = false ∧ is_open card)
               (λ card, card_closed card = false)); [done|].
    intros card. unfold is_open. tauto.
  - intros sort group x Hsort Hgroup Hx.
    by apply (group_cards_from_open_cards data card_mapping sort group).
Qed.

(** C4.  With a card mapping, every identifier of every returned group is
    the value the mapping gives for the name of an open card, not the name;
    and when the name of an open card is not a key of the mapping the
    extractor raises and returns no sort. *)
Theorem mapped_identifiers_or_error data (mapping : gmap string hashable) :
  (∀ sort group x,
      parse_board isoparse data (Some mapping) = Ok sort →
      group ∈ sort_groups sort → x ∈ group_cards group →
      ∃ card, card ∈ board_cards data ∧ card_closed card = false
              ∧ mapping !! card_name card = Some x)
  ∧ ((∃ card, card ∈ board_cards data ∧ card_closed card = false
              ∧ mapping !! card_name card = None) →
     raises (parse_board isoparse data (Some mapping))).
Proof.
  split.
  - intros sort group x Hsort Hgroup Hx.
    destruct (group_cards_from_open_cards _ _ _ _ _ Hsort Hgroup Hx)
      as (card & Hin & Hopen & Hdata).
    exists card. split_and!; [done..|]. by apply from_option_Ok in Hdata.
  - intros (card & Hin & Hopen & Hnone).
    apply raises_not_succeeds. intros [sort Hsort].
    apply parse_board_Ok in Hsort as (d & ? & ? & ? & Hd & _).
    apply assign_cards_data in Hd. rewrite Forall_forall in Hd.
    destruct (Hd card) as [y Hy].
    + by apply list_elem_of_filter.
    + apply from_option_Ok in Hy. congruence.
Qed.

Lemma sort_lists_perm trello_lists : sort_lists trello_lists ≡ₚ trello_lists.
Proof. apply list_sort_perm. Qed.

Lemma sort_lists_sorted trello_lists :
  StronglySorted pos_le (sort_lists trello_lists).
Proof. apply (list_sort_sorted _ _ Qleb_total Qleb_trans). Qed.

Lemma sort_lists_stable p trello_lists :
  filter (pos_is p) (sort_lists trello_lists) = filter (pos_is p) trello_lists.
Proof.
  rewrite !(list_filter_iff _ _ _ (pos_is_same_key p)).
  apply list_sort_stable, Qleb_trans.
Qed.

(** With distinct list ids the returned groups are the groups of the lists
    that have open cards, in sorted order. *)
Lemma sort_groups_distinct data card_mapping sort :
  NoDup (list_id <$> board_lists data) →
  parse_board isoparse data card_mapping = Ok sort →
  sort_groups sort
  = (λ l, (fill card_mapping (filter is_open (board_cards data))
             (slot_of l)).2)
    <$> filter (has_open_cards data card_mapping)
          (sort_lists (board_lists data)).
Proof.
  intros Hnd Hsort. rewrite (sort_groups_filled _ _ _ Hsort).
  assert (NoDup (list_id <$> sort_lists (board_lists data))) as Hnd'.
  { by rewrite sort_lists_perm. }
  unfold dict_values.
  rewrite <-list_fmap_compose, filter_fmap.
  pose proof (λ slot, filled_slot_cards card_mapping data
                        (sort_lists (board_lists data)) slot) as Hcards.
  rewrite (make_groups_distinct _ Hnd') in *.
  rewrite filter_fmap, <-list_fmap_compose. f_equal.
  induction (sort_lists (board_lists data)) as [|l ls IH]; [done|].
  rewrite !filter_cons.
  assert (Hl : (λ g, group_cards g ≠ ∅)
                 (fill card_mapping (filter is_open (board_cards data))
                    (slot_of l)).2
               ↔ has_open_cards data card_mapping l).
  { unfold has_open_cards. rewrite Hcards; [done|]. csimpl.
    apply elem_of_cons. by left. }
  rewrite IH.
  - destruct (decide (has_open_cards data card_mapping l)) as [H|H].
    + rewrite decide_True; [done|]. by apply Hl.
    + rewrite decide_False; [done|]. intros H'. by apply H, Hl.
  - by apply NoDup_cons in Hnd' as [_ ?].
  - intros slot Hslot. apply Hcards. csimpl. apply elem_of_cons. by right.
Qed.

(** C3, amended.  On every document the extractor accepts whose list ids
    are pairwise distinct, the returned groups are those of the lists with
    open cards, in ascending order of [pos]; lists of equal [pos] keep the
    order of the [lists] array. *)
Theorem groups_in_pos_order_when_ids_distinct data card_mapping sort :
  NoDup (list_id <$> board_lists data) →
  parse_board isoparse data card_mapping = Ok sort →
  in_pos_order data card_mapping (sort_groups sort)
    (filter (has_open_cards data card_mapping)
       (sort_lists (board_lists data))).
Proof.
  intros Hnd Hsort. rewrite (sort_groups_distinct _ _ _ Hnd Hsort).
  split_and!.
  - apply Forall2_fmap_l, Forall_Forall2_diag, Forall_forall.
    intros l [_ Hl]%list_elem_of_filter. rewrite sort_lists_perm in Hl.
    split_and!; [done|done|].
    apply (filled_slot_cards _ _ [l]). apply list_elem_of_singleton.
    reflexivity.
  - apply StronglySorted_filter, sort_lists_sorted.
  - intros p. rewrite list_filter_filter.
    rewrite (list_filter_iff _ (λ l, has_open_cards data card_mapping l
                                     ∧ pos_is p l)) by (intros; tauto).
    rewrite <-list_filter_filter, sort_lists_stable.
    apply sublist_filter.
Qed.
End ReturnedGroups.

Example mapped_extracted :
  parse_board clock scenario_board (Some fruit_ids) = Ok mapped_sort.
Proof. vm_compute. reflexivity. Qed.

Example reused_id_extracted :
  parse_board clock reused_id_board None = Ok reused_id_sort.
Proof. vm_compute. reflexivity. Qed.

Example exports_parsed :
  parse_sorts_in_dir clock exports_fs "exports" None
  = Ok [scenario_sort; commented_sort].
Proof. vm_compute. reflexivity. Qed.

(** ** Which actions are kept *)

Section KeptActions.
Variable isoparse : string → option Z.

(** C2, amended.  The type values are those of the export, [updateCard],
    [createList] and [updateList].  On every document whose list updates
    all carry an [old] object, the extractor keeps exactly the actions
    that are an [updateCard] with [listBefore] in its data, a
    [createList], or an [updateList] with [name] in its data's [old], and
    drops every other action; a list update without [old] makes it
    raise. *)
Theorem retained_actions_by_export_type data sorted :
  sort_actions isoparse (board_actions data) = Ok sorted →
  (Forall (λ action, ¬ lacks_old action) (board_actions data) →
     valid_actions sorted = Ok (filter retained sorted)
     ∧ ∀ action, action ∈ filter retained sorted
                 ↔ action ∈ board_actions data ∧ retained action)
  ∧ (Exists lacks_old (board_actions data) → raises (valid_actions sorted)).
Proof.
  intros Hperm%sort_actions_perm. split.
  - intros Hold. split.
    + destruct (result_cases (valid_actions sorted)) as [[valid Hv]|Hraise].
      * by rewrite Hv, (valid_actions_Ok _ _ Hv).
      * apply valid_actions_Raise in Hraise as (a & Ha & Hbare).
        rewrite Hperm in Ha. rewrite Forall_forall in Hold.
        by destruct (Hold a Ha).
    + intros a. rewrite list_elem_of_filter, Hperm. tauto.
  - intros (a & Ha & Hbare)%Exists_exists. apply valid_actions_Raise.
    exists a. by rewrite Hperm.
Qed.
End KeptActions.

(** C2, as stated: an action typed [list created] is dropped and one typed
    [createList] is kept, the reverse of what the wording says; and a list
    update without [old] is not dropped, the loop raises on it. *)
Lemma spelled_types_not_retained :
  (valid_actions spelled_actions = Ok [createList_at "20"]
   ∧ ¬ retains_as_specified spelled_actions)
  ∧ (valid_actions [bare_update] = Raise (KeyError "old")
     ∧ ¬ retains_as_specified [bare_update]).
Proof.
  unfold retains_as_specified. split; split; by vm_compute.
Qed.

Lemma retained_actions_by_export_type_witness :
  (valid_actions [createList_at "10"; createList_at "20"; card_move_at "30"]
   = Ok (filter retained
           [createList_at "10"; createList_at "20"; card_move_at "30"])
   ∧ ∀ action,
       action ∈ filter retained
                  [createList_at "10"; createList_at "20"; card_move_at "30"]
       ↔ action ∈ board_actions scenario_board ∧ retained action)
  ∧ raises (valid_actions [createList_at "10"; bare_update]).
Proof.
  split.
  - apply (retained_actions_by_export_type clock scenario_board).
    + by vm_compute.
    + apply (bool_decide_unpack _). by vm_compute.
  - apply (retained_actions_by_export_type clock
             {| board_name := "Session 6"; board_lists := [];
                board_cards := [];
                board_actions := [bare_update; createList_at "10"] |}).
    + by vm_compute.
    + apply (bool_decide_unpack _). by vm_compute.
Defined.

(** ** Groups and list positions, reused ids *)

(** C3, as stated: with one id on two lists the group of the later list
    takes the slot of the earlier one, so the groups leave the order of
    [pos]. *)
Lemma reused_id_out_of_pos_order :
  parse_board clock reused_id_board None = Ok reused_id_sort
  ∧ ¬ ∃ sources,
        in_pos_order reused_id_board None (sort_groups reused_id_sort) sources.
Proof.
  split; [by vm_compute|].
  intros (sources & Hsrc & Hsorted & _). simpl in Hsrc.
  apply Forall2_cons_inv_l in Hsrc as (l1 & rest & (Hl1 & Hn1 & _) & Hsrc & ->).
  apply Forall2_cons_inv_l in Hsrc as (l2 & rest' & (Hl2 & Hn2 & _) & Hsrc & ->).
  apply Forall2_nil_inv_l in Hsrc as ->.
  apply StronglySorted_cons in Hsorted as [Hle _].
  apply Forall_cons in Hle as [Hle _].
  simpl in Hl1, Hl2, Hn1, Hn2.
  repeat (apply elem_of_cons in Hl1 as [->|Hl1]; [try discriminate Hn1|]);
    [|by apply elem_of_nil in Hl1].
  repeat (apply elem_of_cons in Hl2 as [->|Hl2]; [try discriminate Hn2|]);
    [|by apply elem_of_nil in Hl2].
  by vm_compute in Hle.
Qed.

(** ** The batch driver *)

Section BatchFacts.
Variable isoparse : string → option Z.

Lemma endswith_unfold s suffix :
  endswith s suffix
  = if String.eqb s suffix then true
    else match s with
         | EmptyString => false
         | String _ s' => endswith s' suffix
         end.
Proof. by destruct s. Qed.

Lemma endswith_suffix s suffix :
  endswith s suffix = true ↔ ∃ front, s = front +:+ suffix.
Proof.
  induction s as [|c s IH]; rewrite endswith_unfold.
  - destruct (String.eqb_spec "" suffix) as [<-|Hne].
    + split; [by exists ""|done].
    + split; [done|]. intros ([|??] & H); simpl in H; [done|discriminate H].
  - destruct (String.eqb_spec (String c s) suffix) as [<-|Hne].
    + split; [by exists ""|done].
    + rewrite IH. split.
      * intros (front & ->). by exists (String c front).
      * intros ([|c' front] & H); simpl in H; [done|].
        injection H as -> ->. by exists front.
Qed.

Lemma json_paths fs path (files : list string) :
  omap (M := list) (λ file,
      if isfile fs (path_join path file) && endswith file ".json"
      then Some (path_join path file) else None)
    files
  = path_join path <$> filter (is_json_file fs path) files.
Proof.
  induction files as [|file files IH]; csimpl; [done|].
  rewrite filter_cons.
  destruct (decide (is_json_file fs path file)) as [[Hfile Hjson]|Hnot].
  - rewrite Hfile, Hjson. csimpl. by rewrite IH.
  - destruct (isfile fs (path_join path file)) eqn:Hfile;
      destruct (endswith file ".json") eqn:Hjson; simpl; try done.
    by destruct Hnot.
Qed.

Lemma scanned_paths fs path files :
  listdir fs path = Ok files →
  get_paths_to_jsons_in_dir fs path
  = Ok (path_join path <$> filter (is_json_file fs path) files).
Proof.
  intros Hfiles. unfold get_paths_to_jsons_in_dir. rewrite Hfiles. simpl.
  by rewrite json_paths.
Qed.

Lemma json_named_endswith file :
  json_named file ↔ endswith file ".json" = true.
Proof. symmetry. apply endswith_suffix. Qed.

Lemma prefix_slash file :
  String.prefix "/" file = true ↔ ∃ rest, file = "/" +:+ rest.
Proof.
  rewrite String.prefix_correct. destruct file as [|c rest].
  - split; [done|]. by intros [rest [=]].
  - change (String.substring 0 (String.length "/") (String c rest))
      with (String c (String.substring 0 0 rest)).
    assert (String.substring 0 0 rest = "") as -> by (by destruct rest).
    split.
    + intros [= ->]. by exists rest.
    + by intros [rest' [= -> _]].
Qed.

(** [os.path.join] gives the path of an entry. *)
Lemma path_join_entry_path path file file_path :
  entry_path path file file_path → path_join path file = file_path.
Proof.
  unfold path_join. intros [Hpath Hslash Hname|Hpath Hname].
  - destruct (String.prefix "/" file) eqn:Hprefix.
    { apply prefix_slash in Hprefix as [rest ->]. by destruct (Hname rest). }
    destruct (String.eqb_spec path "") as [->|_]; [done|].
    destruct (endswith path "/") eqn:Hend; [|done].
    apply endswith_suffix in Hend as [front ->]. by destruct (Hslash front).
  - destruct (String.prefix "/" file) eqn:Hprefix.
    { apply prefix_slash in Hprefix as [rest ->]. by destruct (Hname rest). }
    destruct Hpath as [->|[front ->]]; [done|].
    destruct (String.eqb_spec (front +:+ "/") "") as [_|_]; [done|].
    assert (endswith (front +:+ "/") "/" = true) as ->; [|done].
    apply endswith_suffix. by exists front.
Qed.

Lemma entry_paths_plain path files :
  path ≠ "" → endswith path "/" = false →
  Forall (λ file, String.prefix "/" file = false) files →
  ∀ file, file ∈ files → entry_path path file (path +:+ "/" +:+ file).
Proof.
  intros Hpath Hend Hfiles file Hfile. rewrite Forall_forall in Hfiles.
  apply entry_path_sep; [done| |].
  - intros front ->.
    assert (endswith (front +:+ "/") "/" = true) as Htrue
      by (apply endswith_suffix; by exists front).
    congruence.
  - intros rest ->.
    assert (String.prefix "/" ("/" +:+ rest) = true) as Htrue
      by (apply prefix_slash; by exists rest).
    specialize (Hfiles _ Hfile). congruence.
Qed.

Lemma selected_filter {A} (P Q : A → Prop) `{∀ x, Decision (P x)} l kept :
  (∀ x, x ∈ l → P x ↔ Q x) → selected Q l kept → filter P l = kept.
Proof.
  intros HPQ Hsel. induction Hsel as [|x l kept Hx _ IH|x l kept Hx _ IH].
  - done.
  - rewrite filter_cons, decide_True.
    + f_equal. apply IH. intros y Hy. apply HPQ, elem_of_cons. by right.
    + apply HPQ; [apply elem_of_cons; by left|done].
  - rewrite filter_cons, decide_False.
    + apply IH. intros y Hy. apply HPQ, elem_of_cons. by right.
    + intros HP. apply Hx, HPQ; [apply elem_of_cons; by left|done].
Qed.

Lemma selected_elem_of {A} (P : A → Prop) l kept x :
  selected P l kept → x ∈ kept → x ∈ l.
Proof.
  induction 1 as [|y l kept _ _ IH|y l kept _ _ IH]; [done| |].
  - intros [->|Hx]%elem_of_cons; apply elem_of_cons; [by left|right; auto].
  - intros Hx. apply elem_of_cons. right. auto.
Qed.

(** The paths the scanner yields are the paths of the exports. *)
Lemma scanned_exports fs path files child exports :
  listdir fs path = Ok files →
  (∀ file, file ∈ files → entry_path path file (child file)) →
  selected (export_entry fs child) files exports →
  get_paths_to_jsons_in_dir fs path = Ok (child <$> exports).
Proof.
  intros Hfiles Hchild Hsel. rewrite (scanned_paths _ _ _ Hfiles). f_equal.
  assert (filter (is_json_file fs path) files = exports) as ->.
  { apply (selected_filter _ (export_entry fs child)); [|done].
    intros file Hfile. unfold is_json_file, export_entry.
    by rewrite (path_join_entry_path _ _ _ (Hchild _ Hfile)),
      json_named_endswith. }
  apply list_fmap_ext. intros i file Hi. apply path_join_entry_path, Hchild.
  apply (selected_elem_of _ _ _ _ Hsel). by eapply list_elem_of_lookup_2.
Qed.

(** C8, amended.  On every directory whose exports, the immediate-child
    plain files with a name ending in [.json], are all extracted, the batch
    driver returns one sort for each export, in the order of the listing;
    the names without the suffix and the subdirectories add nothing.  When
    an export fails, the driver raises and returns no sort. *)
Theorem batch_returns_one_sort_per_export fs path card_mapping
    files child exports :
  listdir fs path = Ok files →
  (∀ file, file ∈ files → entry_path path file (child file)) →
  selected (export_entry fs child) files exports →
  (∀ sorts,
      parse_sorts_in_dir isoparse fs path card_mapping = Ok sorts ↔
      Forall2 (λ file sort,
          parse_file isoparse fs card_mapping (child file) = Ok sort)
        exports sorts)
  ∧ (Forall (λ file,
         succeeds (parse_file isoparse fs card_mapping (child file)))
       exports →
     ∃ sorts,
       parse_sorts_in_dir isoparse fs path card_mapping = Ok sorts
       ∧ length sorts = length exports)
  ∧ (Exists (λ file,
         raises (parse_file isoparse fs card_mapping (child file)))
       exports →
     raises (parse_sorts_in_dir isoparse fs path card_mapping)).
Proof.
  intros Hfiles Hchild Hsel.
  pose proof (scanned_exports _ _ _ _ _ Hfiles Hchild Hsel) as Hpaths.
  assert (∀ sorts,
    parse_sorts_in_dir isoparse fs path card_mapping = Ok sorts ↔
    Forall2 (λ file sort,
        parse_file isoparse fs card_mapping (child file) = Ok sort)
      exports sorts) as Hiff.
  { intros sorts. unfold parse_sorts_in_dir. rewrite Hpaths. simpl.
    rewrite for_each_append_Ok. split.
    - intros (ys & -> & Hys). by apply Forall2_fmap_l in Hys.
    - intros Hys. exists sorts. split; [done|]. by apply Forall2_fmap_l. }
  split_and!; [done| |].
  - intros Hall.
    assert (succeeds (parse_sorts_in_dir isoparse fs path card_mapping))
      as [sorts Hsorts].
    { unfold parse_sorts_in_dir. rewrite Hpaths. simpl.
      apply for_each_append_succeeds. by apply Forall_fmap. }
    exists sorts. split; [done|].
    apply Hiff in Hsorts. symmetry. by eapply Forall2_length.
  - intros (file & Hfile & [e He])%Exists_exists.
    apply raises_not_succeeds. intros [sorts Hsorts%Hiff].
    apply list_elem_of_lookup in Hfile as [i Hi].
    destruct (Forall2_lookup_l _ _ _ _ _ Hsorts Hi) as (sort & _ & Hsort).
    congruence.
Qed.
End BatchFacts.

(** C8, as stated: a directory with three exports, the second without a
    list creation, yields no sort at all. *)
Lemma failing_export_yields_no_sort :
  parse_sorts_in_dir clock broken_fs "exports" None = Raise StopIteration
  ∧ ¬ one_sort_per_export clock broken_fs "exports" None.
Proof.
  split; [by vm_compute|].
  intros Hclaim.
  destruct (Hclaim ["first.json"; "bad.json"; "second.json"]
              (λ file, "exports" +:+ "/" +:+ file)
              ["first.json"; "bad.json"; "second.json"])
    as (sorts & Hsorts & _).
  - reflexivity.
  - apply entry_paths_plain; [done|reflexivity|].
    apply (bool_decide_unpack _). by vm_compute.
  - repeat (apply selected_keep; [split; [reflexivity|]|]);
      [by exists "first"|by exists "bad"|by exists "second"|].
    apply selected_nil.
  - by vm_compute in Hsorts.
Qed.

Lemma batch_returns_one_sort_per_export_witness :
  parse_sorts_in_dir clock exports_fs "exports" None
  = Ok [scenario_sort; commented_sort].
Proof.
  assert (listdir exports_fs "exports"
          = Ok ["first.json"; "notes.txt"; "second.json"]) as Hfiles
    by reflexivity.
  assert (∀ file, file ∈ ["first.json"; "notes.txt"; "second.json"] →
            entry_path "exports" file ("exports" +:+ "/" +:+ file)) as Hchild.
  { apply entry_paths_plain; [done|reflexivity|].
    apply (bool_decide_unpack _). by vm_compute. }
  assert (selected
            (export_entry exports_fs (λ file, "exports" +:+ "/" +:+ file))
            ["first.json"; "notes.txt"; "second.json"]
            ["first.json"; "second.json"]) as Hsel.
  { apply selected_keep; [split; [reflexivity|by exists "first"]|].
    apply selected_skip.
    { intros [_ Hjson%json_named_endswith]. by vm_compute in Hjson. }
    apply selected_keep; [split; [reflexivity|by exists "second"]|].
    apply selected_nil. }
  apply (proj1 (batch_returns_one_sort_per_export clock exports_fs "exports"
                  None _ _ _ Hfiles Hchild Hsel)).
  repeat constructor; by vm_compute.
Defined.

(** ** Running twice *)

Section Determinism.
Variable isoparse : string → option Z.

Lemma sort_lists_idemp trello_lists :
  sort_lists (sort_lists trello_lists) = sort_lists trello_lists.
Proof. apply (list_sort_idemp _ _ Qleb_total Qleb_trans). Qed.

Lemma sort_actions_idemp actions sorted :
  sort_actions isoparse actions = Ok sorted →
  sort_actions isoparse sorted = Ok sorted.
Proof.
  intros Hsort. pose proof (sort_actions_perm _ _ _ Hsort) as Hperm.
  apply sort_actions_Ok in Hsort as [Hread ->]. apply sort_actions_Ok.
  split; [by rewrite Hperm|].
  symmetry. apply (list_sort_idemp _ _ Zleb_total Zleb_trans).
Qed.

(** C9.  The extractor is a function of the document: two runs on one
    document return equal records.  This also holds when the second run
    reads the decoded object that the first run has sorted in place. *)
Theorem extractor_deterministic data card_mapping :
  (∀ sort1 sort2,
      parse_board isoparse data card_mapping = Ok sort1 →
      parse_board isoparse data card_mapping = Ok sort2 → sort1 = sort2)
  ∧ parse_board isoparse (decoded_after isoparse data card_mapping) card_mapping
    = parse_board isoparse data card_mapping.
Proof.
  split; [congruence|].
  unfold parse_board, decoded_after.
  cbn [board_name board_lists board_cards board_actions].
  rewrite sort_lists_idemp.
  destruct (assign_cards _ _ _) as [groups_by_id|e]; [|done].
  destruct (sort_actions isoparse (board_actions data)) as [sorted|e] eqn:Hs.
  - by rewrite (sort_actions_idemp _ _ Hs).
  - by rewrite Hs.
Qed.
End Determinism.

Lemma extractor_deterministic_witness :
  parse_board clock commented_board None = Ok commented_sort
  ∧ parse_board clock (decoded_after clock commented_board None) None
    = Ok commented_sort.
Proof.
  assert (parse_board clock commented_board None = Ok commented_sort) as H
    by (vm_compute; reflexivity).
  split; [exact H|].
  rewrite (proj2 (extractor_deterministic clock commented_board None)).
  exact H.
Defined.

(** ** The theorems at the sample exports *)

Lemma duration_is_last_action_minus_first_creation_witness :
  parse_board clock commented_board None = Ok commented_sort
  ∧ ∃ sorted first_list last_action t0 t1,
      sort_actions clock (board_actions commented_board) = Ok sorted
      ∧ last sorted = Some last_action
      ∧ dated clock last_action t1
      ∧ (∀ a t, a ∈ board_actions commented_board → dated clock a t → t ≤ t1)
      ∧ first_list ∈ board_actions commented_board
      ∧ retained first_list ∧ is_createList first_list
      ∧ dated clock first_list t0
      ∧ (∀ a t, a ∈ board_actions commented_board → retained a →
           is_createList a → dated clock a t → t0 ≤ t)
      ∧ sort_duration commented_sort = t1 - t0.
Proof.
  assert (parse_board clock commented_board None = Ok commented_sort) as H
    by (vm_compute; reflexivity).
  split; [exact H|].
  exact (duration_is_last_action_minus_first_creation clock commented_board
           None commented_sort H).
Defined.

Lemma duration_nonnegative_witness :
  parse_board clock commented_board None = Ok commented_sort
  ∧ 0 ≤ sort_duration commented_sort.
Proof.
  assert (parse_board clock commented_board None = Ok commented_sort) as H
    by (vm_compute; reflexivity).
  split; [exact H|].
  exact (duration_nonnegative clock commented_board None commented_sort H).
Defined.

Lemma no_createList_raises_witness :
  Forall (λ action, ¬ is_createList action) (board_actions uncreated_board)
  ∧ raises (parse_board clock uncreated_board None).
Proof.
  assert (Forall (λ action, ¬ is_createList action)
            (board_actions uncreated_board)) as H.
  { apply (bool_decide_unpack _). by vm_compute. }
  split; [exact H|].
  apply (no_createList_raises clock uncreated_board None).
  by apply Forall_forall.
Defined.

Lemma groups_nonempty_witness :
  parse_board clock scenario_board None = Ok scenario_sort
  ∧ Forall (λ group, group_cards group ≠ ∅) (sort_groups scenario_sort).
Proof.
  assert (parse_board clock scenario_board None = Ok scenario_sort) as H
    by (vm_compute; reflexivity).
  split; [exact H|].
  exact (groups_nonempty clock scenario_board None scenario_sort H).
Defined.

Lemma closed_cards_contribute_nothing_witness :
  parse_board clock scenario_board None = Ok scenario_sort
  ∧ ∃ card, card ∈ board_cards scenario_board ∧ card_closed card = false
            ∧ card_data_of None card = Ok (HStr "apple").
Proof.
  assert (parse_board clock scenario_board None = Ok scenario_sort) as H
    by (vm_compute; reflexivity).
  split; [exact H|].
  apply (proj2 (closed_cards_contribute_nothing clock scenario_board None)
           scenario_sort (todo_group (HStr "apple")) (HStr "apple") H).
  - apply list_elem_of_singleton. reflexivity.
  - by vm_compute.
Defined.

Lemma mapped_identifiers_or_error_witness :
  (parse_board clock scenario_board (Some fruit_ids) = Ok mapped_sort
   ∧ ∃ card, card ∈ board_cards scenario_board ∧ card_closed card = false
             ∧ fruit_ids !! card_name card = Some (HInt 1))
  ∧ raises (parse_board clock unmapped_board (Some fruit_ids)).
Proof.
  assert (parse_board clock scenario_board (Some fruit_ids) = Ok mapped_sort)
    as H by (vm_compute; reflexivity).
  split; [split; [exact H|]|].
  - apply (proj1 (mapped_identifiers_or_error clock scenario_board fruit_ids)
             mapped_sort (todo_group (HInt 1)) (HInt 1) H).
    + apply list_elem_of_singleton. reflexivity.
    + by vm_compute.
  - apply (proj2 (mapped_identifiers_or_error clock unmapped_board fruit_ids)).
    exists {| card_name := "kiwi"; card_idList := "done"; card_closed := false |}.
    split_and!; [|reflexivity|by vm_compute].
    apply elem_of_cons. right. apply list_elem_of_singleton. reflexivity.
Defined.

Lemma groups_in_pos_order_when_ids_distinct_witness :
  NoDup (list_id <$> board_lists tied_board)
  ∧ parse_board clock tied_board None = Ok tied_sort
  ∧ in_pos_order tied_board None (sort_groups tied_sort)
      (filter (has_open_cards tied_board None)
         (sort_lists (board_lists tied_board))).
Proof.
  assert (NoDup (list_id <$> board_lists tied_board)) as Hnd.
  { apply (bool_decide_unpack _). by vm_compute. }
  assert (parse_board clock tied_board None = Ok tied_sort) as H
    by (vm_compute; reflexivity).
  split_and!; [exact Hnd|exact H|].
  exact (groups_in_pos_order_when_ids_distinct clock tied_board None tied_sort
           Hnd H).
Defined.

(** * Further properties of the module *)

(** ** Loops, continued *)

Lemma for_each_app {A S} (body : S → A → result S) l1 l2 s :
  for_each body (l1 ++ l2) s = for_each body l1 s ≫= for_each body l2.
Proof.
  revert s. induction l1 as [|x l1 IH]; intros s; simpl; [done|].
  destruct (body s x) as [s'|e]; simpl; [apply IH|done].
Qed.

Lemma for_each_append_eq {A B} (f : A → result B) l ys acc :
  Forall2 (λ x y, f x = Ok y) l ys →
  for_each (λ (acc : list B) (x : A), y ← f x; Ok (acc ++ [y])) l acc
  = Ok (acc ++ ys).
Proof. intros H. apply for_each_append_Ok. by exists ys. Qed.

(** The first element on which the body raises ends the loop with its
    exception. *)
Lemma for_each_append_first_Raise {A B} (f : A → result B) front x back e acc :
  Forall (λ x, succeeds (f x)) front → f x = Raise e →
  for_each (λ (acc : list B) (x : A), y ← f x; Ok (acc ++ [y]))
    (front ++ x :: back) acc
  = Raise e.
Proof.
  intros Hfront Hx. rewrite for_each_app.
  destruct (for_each_append_succeeds f front acc Hfront) as [acc' ->].
  simpl. by rewrite Hx.
Qed.

Lemma filter_none {A} (P : A → Prop) `{∀ x, Decision (P x)} (l : list A) :
  Forall (λ x, ¬ P x) l → filter P l = [].
Proof.
  induction 1 as [|x l Hx _ IH]; [done|].
  by rewrite filter_cons, decide_False.
Qed.

(** ** The dictionary of groups, continued *)

Lemma elem_of_dict_set {V} k (v : V) d slot :
  slot ∈ dict_set k v d → slot = (k, v) ∨ slot ∈ d.
Proof.
  induction d as [|[k' v'] d IH]; simpl.
  - intros ->%list_elem_of_singleton. by left.
  - destruct (decide (k' = k)) as [->|Hne]; rewrite !elem_of_cons.
    + intros [->|?]; auto.
    + intros [->|H]; [auto|]. destruct (IH H); auto.
Qed.

Lemma dict_slot_unique {V} (d : list (string * V)) k v1 v2 :
  NoDup (dict_keys d) → (k, v1) ∈ d → (k, v2) ∈ d → v1 = v2.
Proof.
  unfold dict_keys. induction d as [|[k' v'] d IH]; csimpl.
  - by intros _ ?%elem_of_nil.
  - intros [Hk' Hnd]%NoDup_cons [H1|H1]%elem_of_cons [H2|H2]%elem_of_cons.
    + congruence.
    + injection H1 as <- <-. destruct Hk'.
      apply list_elem_of_fmap. by exists (k, v2).
    + injection H2 as <- <-. destruct Hk'.
      apply list_elem_of_fmap. by exists (k, v1).
    + by apply IH.
Qed.

Lemma dict_get_is_Some {V} k (d : list (string * V)) :
  is_Some (dict_get k d) ↔ k ∈ dict_keys d.
Proof.
  rewrite <-not_eq_None_Some, dict_get_None.
  split; [apply dec_stable|by intros ? ?].
Qed.

Lemma make_groups_keys trello_lists k :
  k ∈ dict_keys (make_groups trello_lists) ↔ k ∈ (list_id <$> trello_lists).
Proof.
  unfold make_groups.
  transitivity (k ∈ dict_keys (@nil (string * Group))
                ∨ k ∈ (list_id <$> trello_lists)).
  - generalize (@nil (string * Group)) as acc.
    induction trello_lists as [|l ls IH]; intros acc; csimpl.
    + rewrite elem_of_nil. tauto.
    + rewrite IH, dict_keys_set, elem_of_cons.
      destruct (decide (list_id l ∈ dict_keys acc)) as [Hin|Hnin].
      * split; [tauto|]. intros [?|[->|?]]; tauto.
      * rewrite elem_of_app, list_elem_of_singleton. tauto.
  - unfold dict_keys. csimpl. rewrite elem_of_nil. tauto.
Qed.

(** Every slot of the dictionary was made from a list. *)
Lemma make_groups_slots trello_lists slot :
  slot ∈ make_groups trello_lists →
  ∃ l, l ∈ trello_lists ∧ slot = slot_of l.
Proof.
  unfold make_groups.
  assert (∀ acc : list (string * Group),
    slot ∈ foldl (λ groups_by_id trello_list,
        dict_set (list_id trello_list) (new_Group (list_name trello_list))
          groups_by_id) acc trello_lists →
    slot ∈ acc ∨ ∃ l, l ∈ trello_lists ∧ slot = slot_of l) as H.
  { induction trello_lists as [|l ls IH]; intros acc; simpl; [by left|].
    intros [[->|Hacc]%elem_of_dict_set|(l' & Hl' & ->)]%IH.
    - right. exists l. split; [by apply elem_of_cons; left|done].
    - by left.
    - right. exists l'. split; [by apply elem_of_cons; right|done]. }
  intros [Hnil|Hl]%H; [by apply elem_of_nil in Hnil|done].
Qed.

(** ** When the card loop gets through *)

Lemma assign_cards_keys m cards d d' :
  assign_cards m cards d = Ok d' → dict_keys d' = dict_keys d.
Proof.
  unfold assign_cards. revert d.
  induction cards as [|card cards IH]; intros d; simpl; [by intros [= <-]|].
  intros H. apply bind_Ok in H as (d1 & Hbody & H).
  apply bind_Ok in Hbody as (group & Hget & Hbody).
  apply bind_Ok in Hbody as (x & Hx & [= <-]).
  apply from_option_Ok in Hget.
  rewrite (IH _ H), dict_keys_set, decide_True; [done|].
  apply dict_get_is_Some. by rewrite Hget.
Qed.

Lemma assign_cards_succeeds m cards d :
  succeeds (assign_cards m cards d) ↔
  Forall (λ card, card_idList card ∈ dict_keys d
                  ∧ succeeds (card_data_of m card)) cards.
Proof.
  unfold assign_cards. revert d.
  induction cards as [|card cards IH]; intros d; simpl.
  - split; [by constructor|]. intros _. by exists d.
  - rewrite Forall_cons. split.
    + intros [d' H]. apply bind_Ok in H as (d1 & Hbody & H).
      pose proof Hbody as Hbody'.
      apply bind_Ok in Hbody as (group & Hget & Hbody).
      apply bind_Ok in Hbody as (x & Hx & [= <-]).
      apply from_option_Ok in Hget.
      assert (card_idList card ∈ dict_keys d) as Hin.
      { apply dict_get_is_Some. by rewrite Hget. }
      split; [split; [done|by exists x]|].
      assert (succeeds (for_each
        (λ groups_by_id card0,
           group0 ← from_option (KeyError (card_idList card0))
                      (dict_get (card_idList card0) groups_by_id);
           card_data ← card_data_of m card0;
           Ok (dict_set (card_idList card0) (cards_add card_data group0)
                 groups_by_id))
        cards (dict_set (card_idList card) (cards_add x group) d))) as Hs
        by by exists d'.
      apply IH in Hs. rewrite dict_keys_set, decide_True in Hs by done. done.
    + intros [[Hin [x Hx]] Hrest].
      apply dict_get_is_Some in Hin as Hget. destruct Hget as [group Hget].
      rewrite Hget, Hx. simpl. apply IH.
      by rewrite dict_keys_set, decide_True.
Qed.

(** ** Which documents the extractor accepts, and what it raises *)

Section Outcomes.
Variable isoparse : string → option Z.

Lemma parse_board_stages data card_mapping :
  parse_board isoparse data card_mapping
  = (groups_by_id ← assign_cards card_mapping
                      (filter is_open (board_cards data))
                      (make_groups (sort_lists (board_lists data)));
     actions ← sort_actions isoparse (board_actions data);
     valid ← valid_actions actions;
     first_list ← from_option StopIteration (head (filter is_createList valid));
     start_time ← parse_date isoparse first_list;
     last_action ← from_option IndexError (last actions);
     end_time ← parse_date isoparse last_action;
     Ok {| sort_name := board_name data;
           sort_groups := filter (λ group, group_cards group ≠ ∅)
                            (dict_values groups_by_id);
           sort_duration := end_time - start_time |}).
Proof. reflexivity. Qed.

Lemma placeable_cards_assigned data card_mapping :
  Forall (placeable data card_mapping) (filter is_open (board_cards data)) ↔
  succeeds (assign_cards card_mapping (filter is_open (board_cards data))
              (make_groups (sort_lists (board_lists data)))).
Proof.
  rewrite assign_cards_succeeds. apply Forall_proper; [|done].
  intros card. unfold placeable.
  by rewrite make_groups_keys, sort_lists_perm.
Qed.

Lemma card_data_of_Raise card_mapping card e :
  card_data_of card_mapping card = Raise e → e = KeyError (card_name card).
Proof.
  unfold card_data_of. destruct card_mapping as [mapping|]; [|done].
  destruct (mapping !! card_name card); simpl; congruence.
Qed.

Lemma assign_cards_first_Raise data card_mapping front card back :
  Forall (placeable data card_mapping) front →
  ¬ placeable data card_mapping card →
  assign_cards card_mapping (front ++ card :: back)
    (make_groups (sort_lists (board_lists data)))
  = Raise (card_error data card).
Proof.
  intros Hfront Hcard. unfold assign_cards. rewrite for_each_app.
  assert (succeeds (assign_cards card_mapping front
                      (make_groups (sort_lists (board_lists data)))))
    as [d Hd].
  { apply assign_cards_succeeds. eapply Forall_impl; [exact Hfront|].
    intros c [Hid Hdata]. split; [|done].
    by rewrite make_groups_keys, sort_lists_perm. }
  unfold assign_cards in Hd. rewrite Hd. simpl.
  pose proof (assign_cards_keys _ _ _ _ Hd) as Hkeys.
  unfold card_error, placeable in *.
  destruct (decide (card_idList card ∈ list_id <$> board_lists data))
    as [Hin|Hnin].
  - assert (is_Some (dict_get (card_idList card) d)) as [group ->].
    { apply dict_get_is_Some.
      by rewrite Hkeys, make_groups_keys, sort_lists_perm. }
    simpl. destruct (card_data_of card_mapping card) as [x|e] eqn:Hx.
    + destruct Hcard. split; [done|by exists x].
    + simpl. by rewrite (card_data_of_Raise _ _ _ Hx).
  - assert (dict_get (card_idList card) d = None) as ->; [|done].
    apply dict_get_None. by rewrite Hkeys, make_groups_keys, sort_lists_perm.
Qed.

(** X1.  The first open card that cannot be placed decides the exception:
    [KeyError] on its [idList] when no list has that id, otherwise
    [KeyError] on its name, which the mapping lacks.  The actions are not
    looked at. *)
Theorem first_unplaceable_card_decides_exception data card_mapping
    front card back :
  filter is_open (board_cards data) = front ++ card :: back →
  Forall (placeable data card_mapping) front →
  ¬ placeable data card_mapping card →
  parse_board isoparse data card_mapping = Raise (card_error data card).
Proof.
  intros Hcards Hfront Hcard. rewrite parse_board_stages, Hcards.
  by rewrite (assign_cards_first_Raise _ _ _ _ _ Hfront Hcard).
Qed.

(** In the embedding, where any two instants compare, the documents of
    [extractable] are exactly those on which [parse_board] returns. *)
Lemma parse_board_accepts_iff data card_mapping :
  succeeds (parse_board isoparse data card_mapping)
  ↔ extractable isoparse data card_mapping.
Proof.
  unfold extractable. split.
  - intros [sort Hsort].
    apply parse_board_Ok in Hsort
      as (d & sorted & first_list & last_action & Hd & Hs & Hv & Hfirst & _).
    pose proof (sort_actions_perm _ _ _ Hs) as Hperm.
    split_and!.
    + apply placeable_cards_assigned. by exists d.
    + by apply sort_actions_Ok in Hs as [? _].
    + apply Forall_forall. intros a Ha Hbare.
      assert (raises (valid_actions sorted)) as [e He]; [|congruence].
      apply valid_actions_Raise. exists a. by rewrite Hperm.
    + apply Exists_exists. exists first_list.
      apply head_Some_elem_of, list_elem_of_filter in Hfirst as [? ?].
      by rewrite <-Hperm.
  - intros ([d Hd]%placeable_cards_assigned & Hread & Hold & Hcreate).
    pose proof (proj2 (sort_actions_Ok isoparse _ _) (conj Hread eq_refl))
      as Hs.
    set (sorted := list_sort (instant isoparse) Z.leb (board_actions data)) in *.
    assert (∀ a, a ∈ sorted → readable isoparse a) as Hread'.
    { intros a Ha. unfold sorted in Ha. rewrite list_sort_perm in Ha.
      rewrite Forall_forall in Hread. by apply Hread. }
    assert (valid_actions sorted = Ok (filter retained sorted)) as Hv.
    { destruct (result_cases (valid_actions sorted)) as [[valid Hv]|Hraise].
      - by rewrite Hv, (valid_actions_Ok _ _ Hv).
      - apply valid_actions_Raise in Hraise as (a & Ha & Hbare).
        unfold sorted in Ha. rewrite list_sort_perm in Ha.
        rewrite Forall_forall in Hold. by destruct (Hold a Ha). }
    assert (∃ first_list, head (filter is_createList sorted) = Some first_list
                          ∧ first_list ∈ sorted) as (first_list & Hfirst & Hin).
    { apply Exists_exists in Hcreate as (a & Ha & Hc).
      destruct (head (filter is_createList sorted)) as [first_list|] eqn:Hhead.
      - exists first_list. split; [done|].
        by apply head_Some_elem_of, list_elem_of_filter in Hhead as [_ ?].
      - apply head_None in Hhead.
        assert (a ∈ filter is_createList sorted) as Hin.
        { apply list_elem_of_filter. split; [done|].
          unfold sorted. by rewrite list_sort_perm. }
        rewrite Hhead in Hin. by apply elem_of_nil in Hin. }
    assert (∃ last_action, last sorted = Some last_action
                           ∧ last_action ∈ sorted) as (last_action & Hlast & Hin').
    { destruct (last sorted) as [last_action|] eqn:Hlast.
      - exists last_action. split; [done|by apply last_Some_elem_of].
      - apply last_None in Hlast. rewrite Hlast in Hin.
        by apply elem_of_nil in Hin. }
    eexists. rewrite parse_board_stages, Hd. simpl. rewrite Hs. simpl.
    rewrite Hv. simpl. rewrite filter_createList_retained, Hfirst. simpl.
    rewrite (proj2 (parse_date_Ok isoparse _ _)
               (readable_dated isoparse _ (Hread' _ Hin))). simpl.
    rewrite Hlast. simpl.
    rewrite (proj2 (parse_date_Ok isoparse _ _)
               (readable_dated isoparse _ (Hread' _ Hin'))). simpl.
    reflexivity.
Qed.

(** X5.  The extractor returns a sort only on documents in which every open
    card can be placed, every action date can be read, whatever the type of
    the action, every list update has its [old] object and some action is a
    list creation. *)
Theorem accepted_documents_are_extractable data card_mapping sort :
  parse_board isoparse data card_mapping = Ok sort →
  extractable isoparse data card_mapping.
Proof. intros Hsort. apply parse_board_accepts_iff. by exists sort. Qed.
End Outcomes.

(** ** Cards and groups of a returned sort *)

Section CardsAndGroups.
Variable isoparse : string → option Z.

Lemma sort_groups_slots data card_mapping sort group :
  parse_board isoparse data card_mapping = Ok sort →
  group ∈ sort_groups sort ↔
  group_cards group ≠ ∅
  ∧ ∃ slot, slot ∈ make_groups (sort_lists (board_lists data))
            ∧ group = (fill card_mapping (filter is_open (board_cards data))
                         slot).2.
Proof.
  intros Hsort. rewrite (sort_groups_filled _ _ _ _ Hsort).
  rewrite list_elem_of_filter. unfold dict_values.
  rewrite list_elem_of_fmap. split.
  - intros [Hne (filled & -> & (slot & -> & Hslot)%list_elem_of_fmap)].
    split; [done|]. by exists slot.
  - intros [Hne (slot & Hslot & ->)]. split; [done|].
    eexists. split; [done|]. apply list_elem_of_fmap. by exists slot.
Qed.

(** X6.  No open card is lost: on every document the extractor accepts,
    the identifier of each open card is in a returned group that bears the
    name of a list with the card's [idList]. *)
Theorem every_open_card_is_grouped data card_mapping sort card :
  parse_board isoparse data card_mapping = Ok sort →
  card ∈ board_cards data → card_closed card = false →
  ∃ group x l,
    group ∈ sort_groups sort
    ∧ card_data_of card_mapping card = Ok x ∧ x ∈ group_cards group
    ∧ l ∈ board_lists data ∧ list_id l = card_idList card
    ∧ group_name group = list_name l.
Proof.
  intros Hsort Hcard Hopen.
  assert (extractable isoparse data card_mapping) as (Hplace & _).
  { apply parse_board_accepts_iff. by exists sort. }
  rewrite Forall_forall in Hplace.
  destruct (Hplace card) as [Hid [x Hx]]; [by apply list_elem_of_filter|].
  rewrite <-(sort_lists_perm (board_lists data)), <-make_groups_keys in Hid.
  apply list_elem_of_fmap in Hid as (slot & Hkey & Hslot).
  destruct (make_groups_slots _ _ Hslot) as (l & Hl & ->).
  simpl in Hkey. rewrite sort_lists_perm in Hl.
  pose proof (filled_slot_cards card_mapping data _ _ Hslot) as Hcards.
  assert (x ∈ cards_of card_mapping (board_cards data) (list_id l)) as Hin.
  { apply elem_of_cards_of. by exists card. }
  eexists _, x, l. split_and!; [|done| |done|done|].
  - apply (sort_groups_slots _ _ _ _ Hsort). split; [|by eexists].
    rewrite Hcards. simpl. intros Hempty. rewrite Hempty in Hin.
    by apply not_elem_of_empty in Hin.
  - by rewrite Hcards.
  - done.
Qed.

(** X7.  On every document the extractor accepts, reused list ids
    included, each returned group has a source list: a list of the document
    that gave it its name and whose id files exactly its identifiers. *)
Theorem every_group_has_source_list data card_mapping sort group :
  parse_board isoparse data card_mapping = Ok sort →
  group ∈ sort_groups sort →
  ∃ l, source_list data card_mapping group l.
Proof.
  intros Hsort Hgroup.
  apply (sort_groups_slots _ _ _ _ Hsort) in Hgroup as [_ (slot & Hslot & ->)].
  destruct (make_groups_slots _ _ Hslot) as (l & Hl & Heq).
  exists l. rewrite sort_lists_perm in Hl. split_and!; [done| |].
  - by rewrite Heq.
  - rewrite (filled_slot_cards _ _ _ _ Hslot). by rewrite Heq.
Qed.

(** X8.  When open cards with one identifier are all filed under one list
    id, as open cards with distinct names are without a mapping, no
    identifier is in two returned groups. *)
Theorem groups_share_no_identifier data card_mapping sort group1 group2 x :
  (∀ card1 card2,
      card1 ∈ board_cards data → card2 ∈ board_cards data →
      is_open card1 → is_open card2 →
      card_data_of card_mapping card1 = card_data_of card_mapping card2 →
      card_idList card1 = card_idList card2) →
  parse_board isoparse data card_mapping = Ok sort →
  group1 ∈ sort_groups sort → group2 ∈ sort_groups sort →
  x ∈ group_cards group1 → x ∈ group_cards group2 →
  group1 = group2.
Proof.
  intros Hone Hsort Hg1 Hg2 Hx1 Hx2.
  apply (sort_groups_slots _ _ _ _ Hsort) in Hg1 as [_ ([k1 v1] & Hs1 & ->)].
  apply (sort_groups_slots _ _ _ _ Hsort) in Hg2 as [_ ([k2 v2] & Hs2 & ->)].
  rewrite (filled_slot_cards _ _ _ _ Hs1) in Hx1.
  rewrite (filled_slot_cards _ _ _ _ Hs2) in Hx2.
  apply elem_of_cards_of in Hx1 as (c1 & Hc1 & Ho1 & Hk1 & Hd1).
  apply elem_of_cards_of in Hx2 as (c2 & Hc2 & Ho2 & Hk2 & Hd2).
  simpl in Hk1, Hk2.
  assert (k1 = k2) as <-.
  { rewrite <-Hk1, <-Hk2. apply Hone; try done. congruence. }
  by rewrite (dict_slot_unique _ _ _ _ (make_groups_NoDup _) Hs1 Hs2).
Qed.

Lemma card_data_of_None_inj card1 card2 :
  card_data_of None card1 = card_data_of None card2 →
  card_name card1 = card_name card2.
Proof. unfold card_data_of. congruence. Qed.

(** X9.  A document whose cards are all closed, or that has no card, gives
    a sort without groups when the extractor accepts it. *)
Theorem no_open_card_no_group data card_mapping sort :
  Forall (λ card, card_closed card = true) (board_cards data) →
  parse_board isoparse data card_mapping = Ok sort →
  sort_groups sort = [].
Proof.
  intros Hclosed Hsort.
  destruct (sort_groups sort) as [|group groups] eqn:Hgroups; [done|].
  assert (group ∈ sort_groups sort) as Hgroup.
  { rewrite Hgroups. apply elem_of_cons. by left. }
  pose proof Hgroup as [Hne _]%(sort_groups_slots _ _ _ _ Hsort).
  apply set_choose_L in Hne as [x Hx].
  destruct (group_cards_from_open_cards _ _ _ _ _ _ Hsort Hgroup Hx)
    as (card & Hcard & Hopen & _).
  rewrite Forall_forall in Hclosed. specialize (Hclosed _ Hcard).
  unfold is_open in Hopen. congruence.
Qed.

Lemma identifiers_perm card_mapping cards cards' k :
  cards ≡ₚ cards' →
  identifiers card_mapping cards k = identifiers card_mapping cards' k.
Proof.
  intros Hperm. apply set_eq. intros x. rewrite !elem_of_identifiers.
  split; intros (card & Hin & H); exists card;
    (split; [|done]); [by rewrite <-Hperm|by rewrite Hperm].
Qed.

Lemma same_contents_sym data data' :
  same_contents data data' → same_contents data' data.
Proof. intros (? & ? & ? & ?). by split_and!. Qed.

Lemma extractable_same_contents data data' card_mapping :
  same_contents data data' →
  extractable isoparse data card_mapping →
  extractable isoparse data' card_mapping.
Proof.
  intros (_ & Hlists & Hcards & Hactions) (Hplace & Hread & Hold & Hcreate).
  unfold extractable. rewrite Hcards, Hactions. split_and!; try done.
  eapply Forall_impl; [exact Hplace|].
  intros card. unfold placeable. by rewrite Hlists.
Qed.

Lemma parse_board_same_contents data data' card_mapping sort :
  same_contents data data' →
  parse_board isoparse data card_mapping = Ok sort →
  parse_board isoparse data' card_mapping = Ok sort.
Proof.
  intros Hsame Hsort.
  assert (succeeds (parse_board isoparse data' card_mapping)) as [sort' Hsort'].
  { apply parse_board_accepts_iff.
    apply (extractable_same_contents data); [done|].
    apply parse_board_accepts_iff. by exists sort. }
  rewrite Hsort'. f_equal.
  destruct Hsame as (Hname & Hlists & Hcards & Hactions).
  pose proof (sort_groups_filled _ _ _ _ Hsort) as Hgroups.
  pose proof (sort_groups_filled _ _ _ _ Hsort') as Hgroups'.
  apply parse_board_Ok in Hsort
    as (d & sorted & first & lst & _ & Hs & _ & Hfirst & Hlast & ->).
  apply parse_board_Ok in Hsort'
    as (d' & sorted' & first' & lst' & _ & Hs' & _ & Hfirst' & Hlast' & ->).
  simpl in Hgroups, Hgroups'. rewrite Hgroups, Hgroups', Hname, Hlists.
  destruct (last_action_latest _ _ _ _ Hs Hlast) as (Hin & Ht & Hmax).
  destruct (last_action_latest _ _ _ _ Hs' Hlast') as (Hin' & Ht' & Hmax').
  destruct (first_list_earliest _ _ _ _ Hs Hfirst) as (Hf & Hc & Hu & Hmin).
  destruct (first_list_earliest _ _ _ _ Hs' Hfirst') as (Hf' & Hc' & Hu' & Hmin').
  rewrite Hactions in Hin', Hf'. rewrite <-Hactions in Hin, Hf.
  pose proof (Hmax _ _ Hin' Ht'). pose proof (Hmax' _ _ Hin Ht).
  pose proof (Hmin _ _ Hf' Hc' Hu'). pose proof (Hmin' _ _ Hf Hc Hu).
  f_equal; [|lia]. do 2 f_equal.
  apply list_fmap_ext. intros i slot _. unfold fill.
  rewrite (identifiers_perm card_mapping
             (filter is_open (board_cards data'))
             (filter is_open (board_cards data))); [done|].
  by rewrite Hcards.
Qed.

(** X10.  The order of the [cards] array and of the [actions] array does
    not matter: two documents that differ only in these orders are accepted
    together and give the same sort. *)
Theorem outcome_independent_of_array_order data data' card_mapping sort :
  same_contents data data' →
  parse_board isoparse data' card_mapping = Ok sort
  ↔ parse_board isoparse data card_mapping = Ok sort.
Proof.
  intros Hsame. split; apply parse_board_same_contents;
    [by apply same_contents_sym|done].
Qed.
End CardsAndGroups.

(** ** The scanner and the batch driver, continued *)

Lemma string_app_assoc (s1 s2 s3 : string) :
  (s1 +:+ s2) +:+ s3 = s1 +:+ (s2 +:+ s3).
Proof.
  induction s1 as [|c s1 IH]; [done|].
  change (String c ((s1 +:+ s2) +:+ s3) = String c (s1 +:+ (s2 +:+ s3))).
  by rewrite IH.
Qed.

Lemma path_join_suffix path file : ∃ front, path_join path file = front +:+ file.
Proof.
  unfold path_join. destruct (String.prefix "/" file); [by exists ""|].
  destruct (_ || _); [by exists path|].
  exists (path +:+ "/"). by rewrite string_app_assoc.
Qed.

Lemma endswith_path_join path file suffix :
  endswith file suffix = true → endswith (path_join path file) suffix = true.
Proof.
  rewrite !endswith_suffix. intros (front & ->).
  destruct (path_join_suffix path (front +:+ suffix)) as (front' & ->).
  exists (front' +:+ front). by rewrite string_app_assoc.
Qed.

(** X11.  Every path the scanner yields is the path of a plain file, ends in
    [.json], and the paths come in the order of the directory listing. *)
Theorem scanned_paths_are_json_files fs path files paths :
  listdir fs path = Ok files →
  get_paths_to_jsons_in_dir fs path = Ok paths →
  Forall (λ file_path, isfile fs file_path = true
                       ∧ endswith file_path ".json" = true) paths
  ∧ paths `sublist_of` (path_join path <$> files).
Proof.
  intros Hfiles. unfold get_paths_to_jsons_in_dir. rewrite Hfiles. simpl.
  rewrite json_paths. intros [= <-]. split.
  - apply Forall_fmap, Forall_forall.
    intros file [[Hfile Hjson] _]%list_elem_of_filter. simpl.
    split; [done|by apply endswith_path_join].
  - apply fmap_sublist, sublist_filter.
Qed.

Section BatchOutcomes.
Variable isoparse : string → option Z.

(** X12.  The first export that cannot be opened or extracted aborts the
    batch with its own exception; the sorts of the files before it are not
    returned and the files after it are not read. *)
Theorem first_failing_file_aborts_batch fs path card_mapping files
    front file back e :
  listdir fs path = Ok files →
  filter (is_json_file fs path) files = front ++ file :: back →
  Forall (λ file, succeeds
            (parse_file isoparse fs card_mapping (path_join path file))) front →
  parse_file isoparse fs card_mapping (path_join path file) = Raise e →
  parse_sorts_in_dir isoparse fs path card_mapping = Raise e.
Proof.
  intros Hfiles Hsplit Hfront Hfile.
  unfold parse_sorts_in_dir, get_paths_to_jsons_in_dir.
  rewrite Hfiles. simpl. rewrite json_paths, Hsplit, fmap_app, fmap_cons.
  apply for_each_append_first_Raise; [|done]. by apply Forall_fmap.
Qed.

(** X13.  A directory that cannot be listed makes the driver raise the
    listing's exception, and a directory without a plain file ending in
    [.json] gives the empty sequence, not an error. *)
Theorem batch_without_exports fs path card_mapping :
  (∀ e, listdir fs path = Raise e →
        parse_sorts_in_dir isoparse fs path card_mapping = Raise e)
  ∧ (∀ files, listdir fs path = Ok files →
        Forall (λ file, ¬ is_json_file fs path file) files →
        parse_sorts_in_dir isoparse fs path card_mapping = Ok []).
Proof.
  unfold parse_sorts_in_dir, get_paths_to_jsons_in_dir. split.
  - by intros e ->.
  - intros files -> Hnone. simpl. by rewrite json_paths, filter_none.
Qed.
End BatchOutcomes.

(** ** The further properties at the sample exports *)

Ltac by_evaluation := apply (bool_decide_unpack _); by vm_compute.

Lemma first_unplaceable_card_decides_exception_witness :
  parse_board clock dangling_board None = Raise (KeyError "gone")
  ∧ parse_board clock unmapped_board (Some fruit_ids)
    = Raise (KeyError "kiwi").
Proof.
  split.
  - refine (eq_trans
      (first_unplaceable_card_decides_exception clock dangling_board None
         [open_card]
         {| card_name := "plum"; card_idList := "gone"; card_closed := false |}
         [{| card_name := "kiwi"; card_idList := "todo"; card_closed := false |}]
         _ _ _) _).
    + by vm_compute.
    + by_evaluation.
    + by_evaluation.
    + by vm_compute.
  - refine (eq_trans
      (first_unplaceable_card_decides_exception clock unmapped_board
         (Some fruit_ids) [open_card]
         {| card_name := "kiwi"; card_idList := "done"; card_closed := false |}
         [] _ _ _) _).
    + by vm_compute.
    + by_evaluation.
    + by_evaluation.
    + by vm_compute.
Defined.

Lemma accepted_documents_are_extractable_witness :
  parse_board clock scenario_board None = Ok scenario_sort
  ∧ extractable clock scenario_board None.
Proof.
  assert (parse_board clock scenario_board None = Ok scenario_sort) as H
    by (vm_compute; reflexivity).
  split; [exact H|].
  exact (accepted_documents_are_extractable clock scenario_board None
           scenario_sort H).
Defined.

Lemma every_open_card_is_grouped_witness :
  ∃ group x l,
    group ∈ sort_groups scenario_sort
    ∧ card_data_of None open_card = Ok x ∧ x ∈ group_cards group
    ∧ l ∈ board_lists scenario_board ∧ list_id l = card_idList open_card
    ∧ group_name group = list_name l.
Proof.
  apply (every_open_card_is_grouped clock scenario_board None scenario_sort
           open_card).
  - by vm_compute.
  - apply elem_of_cons. by left.
  - reflexivity.
Defined.

Lemma every_group_has_source_list_witness :
  ∃ l, source_list reused_id_board None
         {| group_name := "Third"; group_cards := {[HStr "apple"]} |} l.
Proof.
  apply (every_group_has_source_list clock reused_id_board None reused_id_sort).
  - by vm_compute.
  - apply elem_of_cons. by left.
Defined.

Lemma groups_share_no_identifier_witness :
  parse_board clock tied_board None = Ok tied_sort
  ∧ HStr "pear" ∈ group_cards {| group_name := "Later";
                                 group_cards := {[HStr "pear"]} |}
  ∧ {| group_name := "Later"; group_cards := {[HStr "pear"]} |}
    = {| group_name := "Later"; group_cards := {[HStr "pear"]} |}.
Proof.
  assert (parse_board clock tied_board None = Ok tied_sort) as H
    by (vm_compute; reflexivity).
  assert (HStr "pear" ∈ group_cards {| group_name := "Later";
                                       group_cards := {[HStr "pear"]} |})
    as Hx by (by vm_compute).
  split_and!; [exact H|exact Hx|].
  apply (groups_share_no_identifier clock tied_board None tied_sort _ _
           (HStr "pear")); [|exact H| | |exact Hx|exact Hx].
  - intros card1 card2 H1 H2 _ _ Heq.
    apply card_data_of_None_inj in Heq.
    apply list_elem_of_In in H1, H2. simpl in H1, H2.
    destruct H1 as [<-|[<-|[<-|[]]]], H2 as [<-|[<-|[<-|[]]]];
      try reflexivity; discriminate Heq.
  - apply elem_of_cons. right. apply elem_of_cons. by left.
  - apply elem_of_cons. right. apply elem_of_cons. by left.
Defined.

Lemma no_open_card_no_group_witness :
  parse_board clock closed_only_board None = Ok closed_only_sort
  ∧ sort_groups closed_only_sort = [].
Proof.
  assert (parse_board clock closed_only_board None = Ok closed_only_sort) as H
    by (vm_compute; reflexivity).
  split; [exact H|].
  apply (no_open_card_no_group clock closed_only_board None closed_only_sort);
    [by_evaluation|exact H].
Defined.

Lemma outcome_independent_of_array_order_witness :
  parse_board clock reordered_board None = Ok scenario_sort.
Proof.
  apply (outcome_independent_of_array_order clock scenario_board
           reordered_board None scenario_sort).
  - split_and!; [reflexivity|reflexivity|apply Permutation_swap|].
    apply Permutation_swap.
  - by vm_compute.
Defined.

Lemma scanned_paths_are_json_files_witness :
  Forall (λ file_path, isfile exports_fs file_path = true
                       ∧ endswith file_path ".json" = true)
    ["exports/first.json"; "exports/second.json"]
  ∧ ["exports/first.json"; "exports/second.json"]
    `sublist_of` (path_join "exports"
                    <$> ["first.json"; "notes.txt"; "second.json"]).
Proof.
  apply (scanned_paths_are_json_files exports_fs "exports"
           ["first.json"; "notes.txt"; "second.json"]).
  - by vm_compute.
  - by vm_compute.
Defined.

Lemma first_failing_file_aborts_batch_witness :
  parse_sorts_in_dir clock broken_fs "exports" None = Raise StopIteration.
Proof.
  apply (first_failing_file_aborts_batch clock broken_fs "exports" None
           ["first.json"; "bad.json"; "second.json"]
           ["first.json"] "bad.json" ["second.json"]).
  - reflexivity.
  - by vm_compute.
  - by_evaluation.
  - by vm_compute.
Defined.

Lemma batch_without_exports_witness :
  parse_sorts_in_dir clock plain_fs "missing" None = Raise (OSError "missing")
  ∧ parse_sorts_in_dir clock plain_fs "plain" None = Ok [].
Proof.
  split.
  - apply (proj1 (batch_without_exports clock plain_fs "missing" None)).
    by vm_compute.
  - apply (proj2 (batch_without_exports clock plain_fs "plain" None)
             ["notes.txt"; "archive.json"]).
    + by vm_compute.
    + by_evaluation.
Defined.
